(** * initkit: a shallow embedding of [src/index.js]

    The CLI copies a template tree into the working directory, asks before
    overwriting, detects the package manager, installs one development
    dependency and patches [package.json].  Every function of [index.js] is
    rendered below as a computation over an explicit world; the collaborators
    the program only calls ([fs/promises], [child_process], [JSON]) are
    interfaces, so that every result holds for whatever they answer. *)

From Stdlib Require Import ZArith Ascii String.
From stdpp Require Import base option list strings gmap pretty.

Open Scope string_scope.
Open Scope list_scope.
Open Scope stdpp_scope.

(** ** Values shared by the whole program *)

(** A path is the list of its components below a fixed root: the template
    root for sources, the target directory for destinations and manifests. *)
Abbreviation path := (list string).

(** [dirname]: the path without its last component. *)
Definition dirname (p : path) : path := removelast p.

(** How a path prints, e.g. inside the overwrite question. *)
Definition show_path (p : path) : string := String.concat "/" p.

(** What a rejected promise or a [throw] carries. *)
Inductive error :=
| SystemError (code : string)      (* an fs or spawn failure: ENOENT, EACCES, ... *)
| Error (message : string)         (* [new Error(message)] *)
| TypeError
| SyntaxError.

(** A synchronous library call either returns or throws. *)
Inductive result (A : Type) :=
| Ok (a : A)
| Fail (e : error).
Arguments Ok {A} a.
Arguments Fail {A} e.

(** An awaited promise resolves, rejects, or never settles. *)
Inductive outcome (A : Type) :=
| Resolved (a : A)
| Rejected (e : error)
| Pending.
Arguments Resolved {A} a.
Arguments Rejected {A} e.
Arguments Pending {A}.

(** What a spawned child reports: an ['error'] event when it could not be
    launched, else an ['exit'] event whose code is a number, or [null]
    ([None]) when a signal ended the child. *)
Inductive child_event :=
| OnError (e : error)
| OnExit (code : option Z).

(** The calls the program makes on the target directory, the console and
    the child process, in the order it makes them.  Listing and examining
    the template tree ([readdir], [stat]) is not among them: those two are
    answered by the tree itself (see [node]) and leave no entry here. *)
Inductive call :=
| Access (p : path)
| Mkdir (p : path)
| CopyFile (src dst : path)
| ReadFile (p : path)
| WriteFile (p : path) (data : string)
| Spawn (cmd : string) (args : list string)
| Question (query : string)
| ConsoleLog (message : string).

Global Instance call_eq_dec : EqDecision call.
Proof. solve_decision. Defined.

(** The operating system as the program sees it.  [host_access] and
    [host_readFile] only look; the others may change the host, also when
    they fail. *)
Class Host (env : Type) := {
  host_access : path → env → result unit;
  host_mkdir : path → env → result unit * env;
  host_copyFile : path → string → path → env → result unit * env;
  host_readFile : path → env → result string;
  host_writeFile : path → string → env → result unit * env;
  host_spawn : string → list string → env → child_event * env
}.

(** The world threaded through every function: the host, the answers
    standard input still holds, and the calls made so far.

    [stdin] has one entry for each question that will get an answer: the
    line its [readline] interface hands to the callback.  Every question
    opens an interface of its own and closes it on the first line, so
    lines that arrive in one burst with that line are dropped with the
    interface and answer nothing; they are not entries of [stdin] (see
    [answers_of]).  Typed one line per prompt, the entries are the lines
    typed. *)
Record world (env : Type) := World {
  host : env;
  stdin : list string;
  trace : list call
}.
Arguments World {env} _ _ _.
Arguments host {env} _.
Arguments stdin {env} _.
Arguments trace {env} _.

Definition record {env} (c : call) (w : world env) : world env :=
  World (host w) (stdin w) (trace w ++ [c]).

(** ** The monad of [async] functions *)

Definition IO (env A : Type) : Type := world env → outcome A * world env.

Global Instance IO_ret {env} : MRet (IO env) :=
  λ A a w, (Resolved a, w).

Global Instance IO_bind {env} : MBind (IO env) :=
  λ A B f m w,
    match m w with
    | (Resolved a, w') => f a w'
    | (Rejected e, w') => (Rejected e, w')
    | (Pending, w') => (Pending, w')
    end.

Definition throw {env A} (e : error) : IO env A := λ w, (Rejected e, w).

(** [try { body } catch (error) { handler }]. *)
Definition try_catch {env A} (body : IO env A) (handler : error → IO env A)
  : IO env A :=
  λ w,
    match body w with
    | (Rejected e, w') => handler e w'
    | settled => settled
    end.

Definition settle {A} (r : result A) : outcome A :=
  match r with
  | Ok a => Resolved a
  | Fail e => Rejected e
  end.

Section Primitives.
Context {env : Type} `{Host env}.

Definition access (p : path) : IO env unit :=
  λ w, (settle (host_access p (host w)), record (Access p) w).

Definition mkdir (p : path) : IO env unit :=
  λ w, let '(r, h) := host_mkdir p (host w) in
       (settle r, World h (stdin w) (trace w ++ [Mkdir p])).

Definition copyFile (src : path) (content : string) (dst : path)
  : IO env unit :=
  λ w, let '(r, h) := host_copyFile src content dst (host w) in
       (settle r, World h (stdin w) (trace w ++ [CopyFile src dst])).

Definition readFile (p : path) : IO env string :=
  λ w, (settle (host_readFile p (host w)), record (ReadFile p) w).

Definition writeFile (p : path) (data : string) : IO env unit :=
  λ w, let '(r, h) := host_writeFile p data (host w) in
       (settle r, World h (stdin w) (trace w ++ [WriteFile p data])).

Definition spawn (cmd : string) (args : list string) : IO env child_event :=
  λ w, let '(ev, h) := host_spawn cmd args (host w) in
       (Resolved ev, World h (stdin w) (trace w ++ [Spawn cmd args])).

Definition console_log (message : string) : IO env unit :=
  λ w, (Resolved tt, record (ConsoleLog message) w).

(** [createInterface], [rl.question(query, callback)] and the
    [rl.close()] of the callback: prints the query and hands the callback
    the answer this question gets, the next entry of [stdin]; at end of
    input the callback never runs. *)
Definition question (query : string) : IO env string :=
  λ w,
    match stdin w with
    | line :: rest =>
        (Resolved line, World (host w) rest (trace w ++ [Question query]))
    | [] => (Pending, record (Question query) w)
    end.
End Primitives.

(** The answers successive questions get when the input arrives in bursts
    (a pipe delivers a whole file as one burst, a terminal one line at a
    time): each question takes the burst at hand, is answered by its first
    line, and drops the lines after it when its interface closes. *)
Definition answers_of (bursts : list (list string)) : list string :=
  burst ← bursts; take 1 burst.

(** ** Interactive prompt ([promptOverwrite], lines 37-57) *)

(** [String.prototype.toLowerCase] on the code units the comparisons can
    see: the letters A-Z.  No character outside that range lowercases to one
    of the letters of y, yes, a, all, so the four comparisons below do not
    depend on the rest of the case mapping. *)
Definition lower_char (c : ascii) : ascii :=
  let n := nat_of_ascii c in
  if (65 <=? n)%nat && (n <=? 90)%nat then ascii_of_nat (n + 32) else c.

Fixpoint toLowerCase (s : string) : string :=
  match s with
  | EmptyString => EmptyString
  | String c rest => String (lower_char c) (toLowerCase rest)
  end.

(** The three values the promise resolves to: ["all"], [true], [false]. *)
Inductive response :=
| All
| Overwrite (yes : bool).

(** The callback of [rl.question], after [rl.close()]. *)
Definition promptOverwrite_answer (answer : string) : response :=
  let lower := toLowerCase answer in
  if (lower =? "a") || (lower =? "all") then All
  else Overwrite ((lower =? "y") || (lower =? "yes")).

Definition promptOverwrite_query (filePath : string) : string :=
  "File " +:+ filePath +:+ " already exists. Overwrite? (y/N/a for all): ".

Definition promptOverwrite {env} (filePath : string) : IO env response :=
  answer ← question (promptOverwrite_query filePath);
  mret (promptOverwrite_answer answer).

(** ** Directory copier ([copyDirectory], lines 59-102) *)

(** The template tree as [readdir] and [stat] show it.  Entries keep the
    order of the listing.  The tree is only read during a walk: the
    destination lives in the host, apart from it.  A walk calls [readdir]
    on every directory it enters and [stat] on every entry it meets; the
    tree is what those calls return, and they are not recorded in the
    trace. *)
#[warnings="-register-all"]
Inductive node :=
| File (content : string)
| Directory (entries : list (string * node))
| Unlistable (e : error)      (* a directory whose [readdir] rejects *)
| Unreachable (e : error).    (* an entry whose [stat] rejects *)

(** Induction over a template tree, with the property known for every
    entry of a directory. *)
Fixpoint node_entries_ind (P : node → Prop)
    (HFile : ∀ content, P (File content))
    (HDirectory : ∀ entries, Forall (λ en, P en.2) entries → P (Directory entries))
    (HUnlistable : ∀ e, P (Unlistable e))
    (HUnreachable : ∀ e, P (Unreachable e))
    (n : node) {struct n} : P n :=
  match n with
  | File content => HFile content
  | Directory entries =>
      HDirectory entries
        ((fix each (l : list (string * node)) : Forall (λ en, P en.2) l :=
            match l with
            | [] => @List.Forall_nil _ _
            | (name, n') :: rest =>
                @List.Forall_cons _ _ (name, n') rest
                  (node_entries_ind P HFile HDirectory HUnlistable
                     HUnreachable n')
                  (each rest)
            end) entries)
  | Unlistable e => HUnlistable e
  | Unreachable e => HUnreachable e
  end.

Section Copier.
Context {env : Type} `{Host env}.

(** Lines 95-96: [mkdir(destDir, {recursive: true})], then [copyFile]. *)
Definition copyInto (relativePath : path) (content : string) : IO env unit :=
  let destPath := relativePath in
  let destDir := dirname destPath in
  mkdir destDir;;
  copyFile relativePath content destPath.

(** Lines 74-97, the [else] branch of the loop body: the entry is a file
    at [relativePath] below the walk root, and [destPath] is the same
    path below the destination root. *)
Definition copyDirectory_file (relativePath : path) (content : string)
    (overwriteAll : bool) : IO env bool :=
  let destPath := relativePath in
  '(overwriteAll, shouldCopy) ←
    try_catch
      (access destPath;;
       if negb overwriteAll then
         response ← promptOverwrite (show_path relativePath);
         match response with
         | All => mret (true, true)
         | Overwrite yes => mret (overwriteAll, yes)
         end
       else mret (overwriteAll, true))
      (λ _, mret (overwriteAll, true));
  (if shouldCopy : bool then copyInto relativePath content else mret tt);;
  mret overwriteAll.

(** [copyDirectory(src, dest, baseSrc, overwriteAll)], with [src] given
    as its path below [baseSrc] and [dir] what the file system holds
    there.  The inner [fix] is the [for ... of entries] loop. *)
Fixpoint copyDirectory (src : path) (dir : node) (overwriteAll : bool)
    {struct dir} : IO env bool :=
  match dir with
  | Directory entries =>
      (fix each (entries : list (string * node)) (overwriteAll : bool)
         : IO env bool :=
         match entries with
         | [] => mret overwriteAll
         | (entry, n) :: rest =>
             let srcPath := src ++ [entry] in
             overwriteAll ←
               match n with
               | Unreachable e => throw e
               | File content =>
                   copyDirectory_file srcPath content overwriteAll
               | _ => copyDirectory srcPath n overwriteAll
               end;
             each rest overwriteAll
         end) entries overwriteAll
  | Unlistable e => throw e
  | Unreachable e => throw e
  | File _ => throw (SystemError "ENOTDIR")
  end.

(** *** The walk as a sequence of visits

    The same traversal, flattened: the files in the order the walk meets
    them, up to the first listing or stat failure. *)
Inductive visit :=
| VisitFile (relativePath : path) (content : string)
| VisitFails (e : error).

Fixpoint visits (src : path) (dir : node) : list visit :=
  match dir with
  | Directory entries =>
      (fix each (entries : list (string * node)) : list visit :=
         match entries with
         | [] => []
         | (entry, n) :: rest =>
             match n with
             | Unreachable e => [VisitFails e]
             | File content => [VisitFile (src ++ [entry]) content]
             | _ => visits (src ++ [entry]) n
             end ++ each rest
         end) entries
  | Unlistable e => [VisitFails e]
  | Unreachable e => [VisitFails e]
  | File _ => [VisitFails (SystemError "ENOTDIR")]
  end.

Definition visit_one (v : visit) (overwriteAll : bool) : IO env bool :=
  match v with
  | VisitFile relativePath content =>
      copyDirectory_file relativePath content overwriteAll
  | VisitFails e => throw e
  end.

Fixpoint walk (vs : list visit) (overwriteAll : bool) : IO env bool :=
  match vs with
  | [] => mret overwriteAll
  | v :: rest => overwriteAll ← visit_one v overwriteAll; walk rest overwriteAll
  end.

(** The walk from [(overwriteAll, w)] arrives at the file [relativePath]
    holding the flag [flag] in the world [w'], with [after] still to
    visit. *)
Definition arrives (src : path) (dir : node) (overwriteAll : bool)
    (w : world env) (relativePath : path) (content : string)
    (after : list visit) (flag : bool) (w' : world env) : Prop :=
  ∃ before,
    visits src dir = before ++ VisitFile relativePath content :: after
    ∧ walk before overwriteAll w = (Resolved flag, w').

(** A copier that never asks: it looks at each destination, ignores what
    it finds, and copies. *)
Fixpoint overwriteEach (vs : list visit) : IO env unit :=
  match vs with
  | [] => mret tt
  | VisitFile relativePath content :: rest =>
      try_catch (access relativePath) (λ _, mret tt);;
      copyInto relativePath content;;
      overwriteEach rest
  | VisitFails e :: _ => throw e
  end.
End Copier.

(** ** Package manager detector ([detectPackageManager], lines 104-120) *)

Inductive packageManager := npm | yarn | pnpm.

Definition packageManager_name (pm : packageManager) : string :=
  match pm with
  | npm => "npm"
  | yarn => "yarn"
  | pnpm => "pnpm"
  end.

Section Detector.
Context {env : Type} `{Host env}.

(** [try { await access(marker); return kind; } catch (error) {}]:
    [Some kind] stands for the [return] inside the [try]. *)
Definition probe (marker : string) (kind : packageManager)
  : IO env (option packageManager) :=
  try_catch (access [marker];; mret (Some kind)) (λ _, mret None).

(** Marker paths are taken below [targetDir]. *)
Definition detectPackageManager : IO env packageManager :=
  found ← probe "pnpm-lock.yaml" pnpm;
  match found with
  | Some kind => mret kind
  | None =>
      found ← probe "yarn.lock" yarn;
      match found with
      | Some kind => mret kind
      | None => mret npm
      end
  end.
End Detector.

(** ** Dependency installer ([installDependency], lines 122-144) *)

Definition commands (packageName : string) (pm : packageManager)
  : string * list string :=
  match pm with
  | npm => ("npm", ["install"; "--save-dev"; packageName])
  | yarn => ("yarn", ["add"; "--dev"; packageName])
  | pnpm => ("pnpm", ["add"; "--save-dev"; packageName])
  end.

(** The template literal [`${code}`]. *)
Definition show_code (code : option Z) : string :=
  match code with
  | Some n => pretty n
  | None => "null"
  end.

Section Installer.
Context {env : Type} `{Host env}.

(** The two listeners: ['error'] rejects with the event's error, ['exit']
    resolves on [code === 0] and rejects otherwise. *)
Definition installDependency (pm : packageManager) (packageName : string)
  : IO env unit :=
  let '(cmd, args) := commands packageName pm in
  console_log ("Installing " +:+ packageName +:+ " with "
               +:+ packageManager_name pm +:+ "...");;
  event ← spawn cmd args;
  match event with
  | OnError e => throw e
  | OnExit code =>
      if bool_decide (code = Some 0%Z) then mret tt
      else throw (Error ("Installation failed with code " +:+ show_code code))
  end.
End Installer.

(** ** Manifest patcher ([updatePackageJson], lines 146-168) *)

Global Instance result_ret : MRet result := λ A a, Ok a.
Global Instance result_bind : MBind result :=
  λ A B f r, match r with Ok a => f a | Fail e => Fail e end.

(** What [JSON.parse] builds.  Members keep the order in which the engine
    enumerates them.  An array also carries the named properties assigned
    to it afterwards ([JSON.parse] itself leaves [named] empty). *)
#[warnings="-register-all"]
Inductive value (num : Type) :=
| JNull
| JBool (b : bool)
| JNumber (n : num)
| JString (s : string)
| JArray (elements : list (value num)) (named : list (string * value num))
| JObject (members : list (string * value num)).
Arguments JNull {num}.
Arguments JBool {num} b.
Arguments JNumber {num} n.
Arguments JString {num} s.
Arguments JArray {num} elements named.
Arguments JObject {num} members.

(** The parts of the engine's [JSON] object and number type the patcher
    relies on. *)
Class JsonLib (num : Type) := {
  number_falsy : num → bool;            (* +0 and -0 *)
  number_text : num → string;           (* the number as JSON.stringify prints it *)
  QuoteJSONString : string → string;
  JSON_parse : string → result (value num)
}.

Definition LF : string := String "010"%char EmptyString.
Definition DQ : string := String "034"%char EmptyString.

Definition keys {A} (members : list (string * A)) : list string :=
  members.*1.

(** Reading an own property. *)
Fixpoint member {A} (key : string) (members : list (string * A)) : option A :=
  match members with
  | [] => None
  | (k, x) :: rest => if decide (k = key) then Some x else member key rest
  end.

(** Assigning an own property whose key is not an array index: an existing
    key keeps its place, a new key goes last. *)
Fixpoint assign {A} (key : string) (v : A) (members : list (string * A))
  : list (string * A) :=
  match members with
  | [] => [(key, v)]
  | (k, x) :: rest =>
      if decide (k = key) then (k, v) :: rest else (k, x) :: assign key v rest
  end.

Section Json.
Context {num : Type} `{JsonLib num}.

(** [!x] is [negb (ToBoolean x)]; [None] is [undefined]. *)
Definition ToBoolean (x : option (value num)) : bool :=
  match x with
  | None => false
  | Some JNull => false
  | Some (JBool b) => b
  | Some (JNumber n) => negb (number_falsy n)
  | Some (JString s) => negb (bool_decide (s = EmptyString))
  | Some (JArray _ _) => true
  | Some (JObject _) => true
  end.

(** [o[key]] for the keys the patcher reads ("scripts"): own properties
    of objects and arrays, nothing on the wrappers of primitives, a
    TypeError on [null]. *)
Definition Get (o : value num) (key : string) : result (option (value num)) :=
  match o with
  | JNull => Fail TypeError
  | JObject members => Ok (member key members)
  | JArray _ named => Ok (member key named)
  | _ => Ok None
  end.

(** [o[key] = v] in strict code (an ES module), for the keys the patcher
    writes; the result is [o] after the assignment.  Assigning to a
    primitive or to [null] throws. *)
Definition Put (o : value num) (key : string) (v : value num)
  : result (value num) :=
  match o with
  | JObject members => Ok (JObject (assign key v members))
  | JArray elements named => Ok (JArray elements (assign key v named))
  | _ => Fail TypeError
  end.

(** [packageJson.scripts[key] = text]: the object held by [scripts] is
    changed in place, so the change shows in [packageJson]. *)
Definition setScript (packageJson : value num) (key text : string)
  : result (value num) :=
  scripts ← Get packageJson "scripts";
  match scripts with
  | None => Fail TypeError
  | Some scripts =>
      scripts ← Put scripts key (JString text);
      Put packageJson "scripts" scripts
  end.

(** Lines 153-158. *)
Definition addScripts (packageJson : value num) : result (value num) :=
  scripts ← Get packageJson "scripts";
  packageJson ←
    (if negb (ToBoolean scripts)
     then Put packageJson "scripts" (JObject [])
     else Ok packageJson);
  packageJson ← setScript packageJson "format" "prettier --write .";
  setScript packageJson "format:check" "prettier --check .".

(** [SerializeJSONProperty] with its [SerializeJSONObject] and
    [SerializeJSONArray], for values that came out of [JSON.parse]. *)
Fixpoint SerializeJSONProperty (gap indent : string) (v : value num)
  : string :=
  match v with
  | JNull => "null"
  | JBool true => "true"
  | JBool false => "false"
  | JNumber n => number_text n
  | JString s => QuoteJSONString s
  | JArray elements _ =>
      let stepback := indent in
      let indent := indent +:+ gap in
      let partial := map (SerializeJSONProperty gap indent) elements in
      match partial with
      | [] => "[]"
      | _ =>
          if decide (gap = EmptyString)
          then "[" +:+ String.concat "," partial +:+ "]"
          else "[" +:+ LF +:+ indent
               +:+ String.concat ("," +:+ LF +:+ indent) partial
               +:+ LF +:+ stepback +:+ "]"
      end
  | JObject members =>
      let stepback := indent in
      let indent := indent +:+ gap in
      let partial :=
        map (λ m, QuoteJSONString m.1 +:+ ":"
                  +:+ (if decide (gap = EmptyString) then EmptyString else " ")
                  +:+ SerializeJSONProperty gap indent m.2) members in
      match partial with
      | [] => "{}"
      | _ =>
          if decide (gap = EmptyString)
          then "{" +:+ String.concat "," partial +:+ "}"
          else "{" +:+ LF +:+ indent
               +:+ String.concat ("," +:+ LF +:+ indent) partial
               +:+ LF +:+ stepback +:+ "}"
      end
  end.

Fixpoint spaces (n : nat) : string :=
  match n with
  | O => EmptyString
  | S n => " " +:+ spaces n
  end.

(** [JSON.stringify(value, null, space)] for a numeric [space]. *)
Definition JSON_stringify (v : value num) (space : nat) : string :=
  SerializeJSONProperty (spaces (space `min` 10)) EmptyString v.
End Json.

Definition sync {env A} (r : result A) : IO env A := λ w, (settle r, w).

Section Patcher.
Context {env : Type} `{Host env} {num : Type} `{JsonLib num}.

Definition updatePackageJson : IO env unit :=
  let packageJsonPath := ["package.json"] in
  try_catch
    (content ← readFile packageJsonPath;
     packageJson ← sync (JSON_parse content);
     packageJson ← sync (addScripts packageJson);
     writeFile packageJsonPath (JSON_stringify packageJson 2 +:+ LF);;
     console_log "Added prettier scripts to package.json.")
    (λ _, console_log "No package.json found, skipping script addition.").
End Patcher.

(** ** Orchestrator ([main], lines 24-35, and its [catch], lines 19-22) *)

Section Orchestrator.
Context {env : Type} `{Host env} {num : Type} `{JsonLib num}.

(** [templatesDir] is given as the tree found there; [targetDir] is the
    root of every destination, marker and manifest path. *)
Definition main (templatesDir : node) : IO env unit :=
  console_log "Setting up project templates...";;
  copyDirectory [] templatesDir false;;
  console_log "Templates added successfully!";;
  packageManager ← detectPackageManager;
  installDependency packageManager "prettier-plugin-tailwindcss";;
  updatePackageJson.

(** [error.message]: the text given to [new Error]; for the errors the
    host and the engine make, whatever text [describe] says they carry. *)
Definition error_message (describe : error → string) (e : error) : string :=
  match e with
  | Error message => message
  | _ => describe e
  end.

(** [main().catch(...)]: when [main] rejects, the handler writes one line
    to standard error and calls [process.exit(1)]; [Some (line, status)]
    says it ran. *)
Definition main_catch (describe : error → string) (templatesDir : node)
    (w : world env) : option (string * Z) * world env :=
  match main templatesDir w with
  | (Rejected error, w') =>
      (Some ("Error: " +:+ error_message describe error, 1%Z), w')
  | (_, w') => (None, w')
  end.
End Orchestrator.

(** ** An in-memory host, to run the program on concrete inputs *)

Module InMemory.
(** Regular files below the target directory, paths that may not be
    looked up, a read-only switch for the whole directory, and the event
    the spawned program will report. *)
Record mem := Mem {
  files : gmap path string;
  denied : gset path;
  readonly : bool;
  child : child_event
}.

Definition guarded (m : mem) (m' : mem) : result unit * mem :=
  if readonly m then (Fail (SystemError "EROFS"), m) else (Ok tt, m').

(** Directories are not stored: one exists when it is the target directory
    itself or lies above a stored file. *)
Definition has_directory (p : path) (m : mem) : bool :=
  bool_decide (p = [])
  || existsb (λ f, bool_decide (take (length p) f.1 = p)
                   && negb (bool_decide (f.1 = p)))
       (map_to_list (files m)).

(** [mkdir(p, {recursive: true})]: nothing to do for a directory that
    exists; a file at the path or above it is in the way; making a
    directory needs a writable target. *)
Definition make_directory (p : path) (m : mem) : result unit * mem :=
  if has_directory p m then (Ok tt, m)
  else if bool_decide (is_Some (files m !! p))
  then (Fail (SystemError "EEXIST"), m)
  else if existsb (λ n, bool_decide (is_Some (files m !! take n p)))
            (seq 1 (length p - 1))
  then (Fail (SystemError "ENOTDIR"), m)
  else guarded m m.

Definition store (p : path) (data : string) (m : mem) : mem :=
  Mem (<[p := data]> (files m)) (denied m) (readonly m) (child m).

Global Instance mem_host : Host mem := {
  host_access p m :=
    if decide (p ∈ denied m) then Fail (SystemError "EACCES")
    else match files m !! p with
         | Some _ => Ok tt
         | None => Fail (SystemError "ENOENT")
         end;
  host_mkdir p m := make_directory p m;
  host_copyFile src content dst m := guarded m (store dst content m);
  host_readFile p m :=
    match files m !! p with
    | Some data => Ok data
    | None => Fail (SystemError "ENOENT")
    end;
  host_writeFile p data m := guarded m (store p data m);
  host_spawn cmd args m := (child m, m)
}.

(** A string between double quotes. *)
Definition quoted (s : string) : string := DQ +:+ s +:+ DQ.

(** Three manifests: with a [scripts] object, with a string for [scripts],
    and without [scripts]. *)
Definition manifest_text : string :=
  "{" +:+ quoted "name" +:+ ":" +:+ quoted "p" +:+ ","
  +:+ quoted "scripts" +:+ ":{" +:+ quoted "test" +:+ ":" +:+ quoted "x" +:+ "}}".
Definition manifest : value Z :=
  JObject [("name", JString "p"); ("scripts", JObject [("test", JString "x")])].

Definition odd_manifest_text : string :=
  "{" +:+ quoted "name" +:+ ":" +:+ quoted "p" +:+ ","
  +:+ quoted "scripts" +:+ ":" +:+ quoted "build" +:+ "}".
Definition odd_manifest : value Z :=
  JObject [("name", JString "p"); ("scripts", JString "build")].

Definition bare_manifest_text : string :=
  "{" +:+ quoted "name" +:+ ":" +:+ quoted "p" +:+ "}".
Definition bare_manifest : value Z :=
  JObject [("name", JString "p")].

Definition manifests : list (string * value Z) :=
  [ (manifest_text, manifest);
    (odd_manifest_text, odd_manifest);
    (bare_manifest_text, bare_manifest) ].

(** Numbers are integers here, strings are quoted without escapes, and the
    parser knows the three manifests by heart. *)
Global Instance mem_json : JsonLib Z := {
  number_falsy n := bool_decide (n = 0%Z);
  number_text n := pretty n;
  QuoteJSONString := quoted;
  JSON_parse text :=
    match member text manifests with
    | Some doc => Ok doc
    | None => Fail SyntaxError
    end
}.

Definition start (fs : list (path * string)) (input : list string) : world mem :=
  World (Mem (list_to_map fs) ∅ false (OnExit (Some 0%Z))) input [].

(** A read-only target directory holding the manifest without scripts:
    every write fails with EROFS. *)
Definition readonly_world : world mem :=
  World (Mem {[ ["package.json"] := bare_manifest_text ]} ∅ true
           (OnExit (Some 0%Z))) [] [].

Definition bare_manifest_patched : value Z :=
  JObject [("name", JString "p");
           ("scripts",
            JObject [("format", JString "prettier --write .");
                     ("format:check", JString "prettier --check .")])].

(** A template tree with a subdirectory between two files. *)
Definition templates : node :=
  Directory [("a.txt", File "A");
             ("sub", Directory [("b.txt", File "B")]);
             ("c.txt", File "C")].

(** The same tree with a subdirectory that cannot be listed. *)
Definition locked_templates : node :=
  Directory [("a.txt", File "A");
             ("sub", Unlistable (SystemError "EACCES"));
             ("c.txt", File "C")].

(** A tree of directories without any file. *)
Definition hollow_templates : node :=
  Directory [("docs", Directory [("img", Directory [])]);
             ("src", Directory [])].

(** Further manifests: a lone array, an object whose [scripts] is an
    array, and [null]; and a parser that knows them too. *)
Definition array_manifest_text : string := "[7]".
Definition array_manifest : value Z := JArray [JNumber 7%Z] [].

Definition listed_manifest_text : string :=
  "{" +:+ quoted "scripts" +:+ ":[" +:+ quoted "build" +:+ "]}".
Definition listed_manifest : value Z :=
  JObject [("scripts", JArray [JString "build"] [])].

Definition null_manifest_text : string := "null".

Definition more_manifests : list (string * value Z) :=
  manifests ++ [ (array_manifest_text, array_manifest);
                 (listed_manifest_text, listed_manifest);
                 (null_manifest_text, JNull) ].

Definition more_json : JsonLib Z := {|
  number_falsy n := bool_decide (n = 0%Z);
  number_text n := pretty n;
  QuoteJSONString := quoted;
  JSON_parse text :=
    match member text more_manifests with
    | Some doc => Ok doc
    | None => Fail SyntaxError
    end
|}.

(** An empty target directory in which the package manager will exit
    with code 1. *)
Definition failing_install : world mem :=
  World (Mem ∅ ∅ false (OnExit (Some 1%Z))) [] [].

(** A read-only target directory that holds nothing. *)
Definition readonly_empty : world mem :=
  World (Mem ∅ ∅ true (OnExit (Some 0%Z))) [] [].
End InMemory.

(** ** Vocabulary of the statements *)

(** The upper-case form of a lower-case letter. *)
Definition upper_char (c : ascii) : ascii :=
  let n := nat_of_ascii c in
  if (97 <=? n)%nat && (n <=? 122)%nat then ascii_of_nat (n - 32) else c.

(** Every way of writing [word] (given in lower case) with each letter in
    either case. *)
Fixpoint casings (word : string) : list string :=
  match word with
  | EmptyString => [EmptyString]
  | String c rest =>
      t ← casings rest; [String c t; String (upper_char c) t]
  end.

Definition yes_answers : list string := casings "y" ++ casings "yes".
Definition all_answers : list string := casings "a" ++ casings "all".

(** [part] occurs inside [whole]. *)
Definition contains (part whole : string) : Prop :=
  ∃ before after, whole = before +:+ part +:+ after.

(** The calls made between two worlds of one run. *)
Definition calls_since {env} (w w' : world env) : list call :=
  drop (length (trace w)) (trace w').

(** How often a marker file is looked for among some calls. *)
Definition checks (marker : string) (calls : list call) : nat :=
  length (filter (λ c, c = Access [marker]) calls).

Definition marker_exists `{Host env} (marker : string) (w : world env) : bool :=
  match host_access [marker] (host w) with
  | Ok _ => true
  | Fail _ => false
  end.

(** The detector looks for each of the two markers exactly once. *)
Definition checks_each_marker_once `{Host env} (w : world env) : Prop :=
  let calls := calls_since w (detectPackageManager w).2 in
  checks "pnpm-lock.yaml" calls = 1 ∧ checks "yarn.lock" calls = 1.

(** The members the two scripts are added to: those of [scripts] when it
    is an object, none when [scripts] is missing or falsy.  There are none
    to add to ([None]) when [scripts] holds an array or a truthy
    primitive. *)
Definition scripts_of `{JsonLib num} (members : list (string * value num))
  : option (list (string * value num)) :=
  match member "scripts" members with
  | None => Some []
  | Some (JObject scripts) => Some scripts
  | Some v => if ToBoolean (Some v) then None else Some []
  end.

(** One line of a serialized object: the quoted key, a colon, a space and
    the value. *)
Definition member_line `{JsonLib num} (gap indent : string)
    (m : string * value num) : string :=
  QuoteJSONString m.1 +:+ ": " +:+ SerializeJSONProperty gap indent m.2.

Definition success_message : string :=
  "Added prettier scripts to package.json.".
Definition skip_message : string :=
  "No package.json found, skipping script addition.".

Definition is_question (c : call) : bool :=
  match c with
  | Question _ => true
  | _ => false
  end.

(** A computation that asks no question and takes no answer. *)
Definition silent {env A} (m : IO env A) : Prop :=
  ∀ w r w', m w = (r, w') →
    stdin w' = stdin w
    ∧ ∃ calls, trace w' = trace w ++ calls
               ∧ Forall (λ c, is_question c = false) calls.

(** *** Vocabulary of the further properties *)

(** The package manager the markers of a world stand for. *)
Definition detected `{Host env} (w : world env) : packageManager :=
  if marker_exists "pnpm-lock.yaml" w then pnpm
  else if marker_exists "yarn.lock" w then yarn
  else npm.

(** The world in which the installer starts, after a copy that ended in
    [w1]: the success line is printed and the markers are looked up. *)
Definition before_install `{Host env} (w1 : world env) : world env :=
  (detectPackageManager
     (record (ConsoleLog "Templates added successfully!") w1)).2.

(** The error the installer rejects with for an event other than a clean
    exit. *)
Definition install_error (event : child_event) : error :=
  match event with
  | OnError e => e
  | OnExit code => Error ("Installation failed with code " +:+ show_code code)
  end.

(** A call that belongs to the visit of one of the files [vs]: the look-up
    of its destination, the question about it, the creation of the
    directory it goes to, or its copy to the same relative path. *)
Definition mirrors (vs : list visit) (c : call) : Prop :=
  ∃ relativePath content,
    VisitFile relativePath content ∈ vs
    ∧ (c = Access relativePath
       ∨ c = Question (promptOverwrite_query (show_path relativePath))
       ∨ c = Mkdir (dirname relativePath)
       ∨ c = CopyFile relativePath relativePath).

(** Every call a computation makes satisfies [P]. *)
Definition emits {env A} (P : call → Prop) (m : IO env A) : Prop :=
  ∀ w, ∃ calls, trace (m w).2 = trace w ++ calls ∧ Forall P calls.

(** Objects and arrays: the values a property can be assigned to. *)
Definition is_container {num} (v : value num) : bool :=
  match v with
  | JObject _ | JArray _ _ => true
  | _ => false
  end.

(** The named properties of an object or array, and the same value with
    other named properties. *)
Definition props {num} (v : value num) : list (string * value num) :=
  match v with
  | JObject members => members
  | JArray _ named => named
  | _ => []
  end.

Definition with_props {num} (v : value num)
    (members : list (string * value num)) : value num :=
  match v with
  | JObject _ => JObject members
  | JArray elements _ => JArray elements members
  | _ => v
  end.

(** The value the two scripts are assigned to: what [scripts] holds when
    that is truthy, a fresh object otherwise. *)
Definition scripts_holder `{JsonLib num} (packageJson : value num) : value num :=
  match member "scripts" (props packageJson) with
  | Some v => if ToBoolean (Some v) then v else JObject []
  | None => JObject []
  end.

(** The manifests the two scripts can be assigned to: an object or array
    whose [scripts] is missing, falsy, or itself an object or array. *)
Definition addable `{JsonLib num} (packageJson : value num) : bool :=
  is_container packageJson
  && match Get packageJson "scripts" with
     | Ok (Some scripts) =>
         negb (ToBoolean (Some scripts)) || is_container scripts
     | _ => true
     end.

Definition is_write (c : call) : bool :=
  match c with
  | WriteFile _ _ => true
  | _ => false
  end.

Definition is_manifest_call (c : call) : bool :=
  match c with
  | ReadFile _ | WriteFile _ _ => true
  | _ => false
  end.

Definition is_spawn (c : call) : bool :=
  match c with
  | Spawn _ _ => true
  | _ => false
  end.

(** * Properties *)

(** ** Running a computation *)

Lemma run_bind {env A B} (m : IO env A) (f : A → IO env B) (w : world env) :
  (m ≫= f) w =
  match m w with
  | (Resolved a, w') => f a w'
  | (Rejected e, w') => (Rejected e, w')
  | (Pending, w') => (Pending, w')
  end.
Proof. reflexivity. Qed.

Lemma run_bind_resolved {env A B} (m : IO env A) (f : A → IO env B) w a w' :
  m w = (Resolved a, w') → (m ≫= f) w = f a w'.
Proof. intros E. rewrite run_bind, E. reflexivity. Qed.

Lemma run_bind_ext {env A B} (m : IO env A) (f g : A → IO env B) w :
  (∀ a w', f a w' = g a w') → (m ≫= f) w = (m ≫= g) w.
Proof.
  intros E. rewrite !run_bind. destruct (m w) as [[a| |] w']; auto.
Qed.

Lemma run_bind_assoc {env A B C} (m : IO env A) (f : A → IO env B)
    (g : B → IO env C) w :
  ((m ≫= f) ≫= g) w = (m ≫= λ a, f a ≫= g) w.
Proof.
  rewrite !run_bind. destruct (m w) as [[a| |] w']; reflexivity.
Qed.

(** ** The prompt *)

Example yes_answers_are :
  yes_answers
  = ["y"; "Y"; "yes"; "Yes"; "yEs"; "YEs"; "yeS"; "YeS"; "yES"; "YES"].
Proof. reflexivity. Qed.

Example all_answers_are :
  all_answers
  = ["a"; "A"; "all"; "All"; "aLl"; "ALl"; "alL"; "AlL"; "aLL"; "ALL"].
Proof. reflexivity. Qed.

Lemma lower_char_letters (c : ascii) :
  (lower_char c = "y"%char → c = "y"%char ∨ c = "Y"%char)
  ∧ (lower_char c = "e"%char → c = "e"%char ∨ c = "E"%char)
  ∧ (lower_char c = "s"%char → c = "s"%char ∨ c = "S"%char)
  ∧ (lower_char c = "a"%char → c = "a"%char ∨ c = "A"%char)
  ∧ (lower_char c = "l"%char → c = "l"%char ∨ c = "L"%char).
Proof.
  destruct c as [[] [] [] [] [] [] [] []]; vm_compute;
    repeat split; intros E;
    first [ discriminate E | left; reflexivity | right; reflexivity ].
Qed.

Lemma toLowerCase_empty s : toLowerCase s = EmptyString → s = EmptyString.
Proof. destruct s; [reflexivity | discriminate]. Qed.

Lemma toLowerCase_cons s d t :
  toLowerCase s = String d t →
  ∃ c s', s = String c s' ∧ lower_char c = d ∧ toLowerCase s' = t.
Proof.
  destruct s as [|c s']; simpl; [discriminate |].
  intros E. injection E as Ec Es. eauto.
Qed.

Ltac spell :=
  repeat match goal with
  | E : toLowerCase _ = String _ _ |- _ =>
      apply toLowerCase_cons in E; destruct E as (? & ? & -> & ? & E)
  | E : toLowerCase _ = EmptyString |- _ =>
      apply toLowerCase_empty in E; subst
  | E : lower_char ?c = _ |- _ =>
      first [ apply (proj1 (lower_char_letters c)) in E
            | apply (proj1 (proj2 (lower_char_letters c))) in E
            | apply (proj1 (proj2 (proj2 (lower_char_letters c)))) in E
            | apply (proj1 (proj2 (proj2 (proj2 (lower_char_letters c))))) in E
            | apply (proj2 (proj2 (proj2 (proj2 (lower_char_letters c))))) in E ];
      destruct E; subst
  end.

Lemma lower_is_y s : toLowerCase s = "y" ↔ s ∈ casings "y".
Proof.
  split.
  - intros E. spell; vm_compute; set_solver.
  - intros E. vm_compute in E. set_unfold. intuition (subst; reflexivity).
Qed.

Lemma lower_is_yes s : toLowerCase s = "yes" ↔ s ∈ casings "yes".
Proof.
  split.
  - intros E. spell; vm_compute; set_solver.
  - intros E. vm_compute in E. set_unfold. intuition (subst; reflexivity).
Qed.

Lemma lower_is_a s : toLowerCase s = "a" ↔ s ∈ casings "a".
Proof.
  split.
  - intros E. spell; vm_compute; set_solver.
  - intros E. vm_compute in E. set_unfold. intuition (subst; reflexivity).
Qed.

Lemma lower_is_all s : toLowerCase s = "all" ↔ s ∈ casings "all".
Proof.
  split.
  - intros E. spell; vm_compute; set_solver.
  - intros E. vm_compute in E. set_unfold. intuition (subst; reflexivity).
Qed.

(** The promise of [promptOverwrite] resolves with the callback's value
    for whatever line is read. *)
Lemma promptOverwrite_run {env} (filePath answer : string) (rest : list string)
    (w : world env) :
  stdin w = answer :: rest →
  promptOverwrite filePath w
  = (Resolved (promptOverwrite_answer answer),
     World (host w) rest (trace w ++ [Question (promptOverwrite_query filePath)])).
Proof.
  intros Hin. unfold promptOverwrite. rewrite run_bind. unfold question.
  rewrite Hin. reflexivity.
Qed.

(** C3.  The answer mapping is total and case-insensitive: an answer
    resolves to [true] exactly when it is "y" or "yes" in any casing, to
    ["all"] exactly when it is "a" or "all" in any casing, and to [false]
    for every other string, the empty one included. *)
Theorem promptOverwrite_answer_mapping (answer : string) :
  (promptOverwrite_answer answer = Overwrite true ↔ answer ∈ yes_answers)
  ∧ (promptOverwrite_answer answer = All ↔ answer ∈ all_answers)
  ∧ (promptOverwrite_answer answer = Overwrite false
     ↔ (answer ∉ yes_answers) ∧ (answer ∉ all_answers))
  ∧ promptOverwrite_answer EmptyString = Overwrite false.
Proof.
  assert (Ha : ((toLowerCase answer =? "a") || (toLowerCase answer =? "all"))
               = true ↔ answer ∈ all_answers).
  { unfold all_answers. rewrite elem_of_app, <- lower_is_a, <- lower_is_all.
    rewrite orb_true_iff, !String.eqb_eq. reflexivity. }
  assert (Hy : ((toLowerCase answer =? "y") || (toLowerCase answer =? "yes"))
               = true ↔ answer ∈ yes_answers).
  { unfold yes_answers. rewrite elem_of_app, <- lower_is_y, <- lower_is_yes.
    rewrite orb_true_iff, !String.eqb_eq. reflexivity. }
  assert (Hd : answer ∈ yes_answers → answer ∉ all_answers).
  { intros Hin. vm_compute in Hin. set_unfold.
    intros Hin'. vm_compute in Hin'. set_unfold.
    intuition (subst; discriminate). }
  unfold promptOverwrite_answer. cbv zeta.
  destruct ((toLowerCase answer =? "a") || (toLowerCase answer =? "all"))
    eqn:Ea;
  destruct ((toLowerCase answer =? "y") || (toLowerCase answer =? "yes"))
    eqn:Ey;
  repeat split; try discriminate; try reflexivity; intros;
  repeat match goal with
  | E : _ ∧ _ |- _ => destruct E
  | E : ?P ↔ _, E' : ?P |- _ => apply E in E'
  end;
  try (exfalso; intuition congruence);
  try (intuition congruence).
Qed.

(** ** The detector *)

Section DetectorFacts.
Context {env : Type} `{Host env}.

Lemma probe_run (marker : string) (kind : packageManager) (w : world env) :
  probe marker kind w =
  (Resolved (if marker_exists marker w then Some kind else None),
   record (Access [marker]) w).
Proof.
  unfold probe, try_catch, marker_exists. rewrite run_bind. unfold access.
  destruct (host_access [marker] (host w)) as [[]|e]; reflexivity.
Qed.

(** C4, as the code has it.  The pnpm marker is looked for first and on
    every call; the yarn marker is looked for next, and only when the pnpm
    one was not found; the first marker found decides, and the answer is
    npm exactly when neither look-up succeeds.  Nothing else is touched. *)
Theorem detectPackageManager_order (w : world env) :
  let '(r, w') := detectPackageManager w in
  host w' = host w
  ∧ stdin w' = stdin w
  ∧ (if marker_exists "pnpm-lock.yaml" w then
       r = Resolved pnpm
       ∧ trace w' = trace w ++ [Access ["pnpm-lock.yaml"]]
     else
       r = Resolved (if marker_exists "yarn.lock" w then yarn else npm)
       ∧ trace w' = trace w ++ [Access ["pnpm-lock.yaml"]; Access ["yarn.lock"]])
  ∧ (r = Resolved npm
     ↔ marker_exists "pnpm-lock.yaml" w = false
       ∧ marker_exists "yarn.lock" w = false).
Proof.
  unfold detectPackageManager.
  rewrite run_bind, probe_run.
  assert (Hy : marker_exists "yarn.lock" (record (Access ["pnpm-lock.yaml"]) w)
               = marker_exists "yarn.lock" w) by reflexivity.
  destruct (marker_exists "pnpm-lock.yaml" w) eqn:Ep.
  - cbn. repeat split; try discriminate. intros [? _]. discriminate.
  - rewrite run_bind, probe_run, Hy.
    destruct (marker_exists "yarn.lock" w) eqn:Ey; cbn;
      rewrite <- ?app_assoc; repeat split; try discriminate; try reflexivity.
    intros [_ ?]. discriminate.
Qed.
End DetectorFacts.

(** C4, as the claim words it, fails: with [pnpm-lock.yaml] present the
    detector answers pnpm after one look-up and never looks for
    [yarn.lock]. *)
Lemma detectPackageManager_skips_yarn_check :
  let w := InMemory.start [(["pnpm-lock.yaml"], "lockfileVersion: 9")] [] in
  (detectPackageManager w).1 = Resolved pnpm
  ∧ checks "yarn.lock" (calls_since w (detectPackageManager w).2) = 0
  ∧ ¬ checks_each_marker_once w.
Proof.
  cbv zeta. split; [|split].
  - vm_compute. reflexivity.
  - vm_compute. reflexivity.
  - intros [_ E]. vm_compute in E. discriminate E.
Qed.

(** With only [yarn.lock] present both markers are looked for, in order. *)
Example detectPackageManager_yarn :
  let w := InMemory.start [(["yarn.lock"], "# yarn lockfile v1")] [] in
  (detectPackageManager w).1 = Resolved yarn
  ∧ calls_since w (detectPackageManager w).2
    = [Access ["pnpm-lock.yaml"]; Access ["yarn.lock"]].
Proof. split; vm_compute; reflexivity. Qed.

(** ** The installer *)

Section InstallerFacts.
Context {env : Type} `{Host env}.

Lemma append_empty_r (s : string) : s +:+ EmptyString = s.
Proof.
  induction s as [|c s IH]; [reflexivity|].
  change (String c (s +:+ EmptyString) = String c s). by rewrite IH.
Qed.

Lemma contains_suffix (part before : string) : contains part (before +:+ part).
Proof.
  exists before, EmptyString. by rewrite append_empty_r.
Qed.

Lemma installDependency_run (pm : packageManager) (packageName : string)
    (w : world env) :
  installDependency pm packageName w =
  let '(cmd, args) := commands packageName pm in
  let '(event, h) := host_spawn cmd args (host w) in
  (match event with
   | OnError e => Rejected e
   | OnExit code =>
       if bool_decide (code = Some 0%Z) then Resolved tt
       else Rejected (Error ("Installation failed with code "
                             +:+ show_code code))
   end,
   World h (stdin w)
     (trace w ++ [ConsoleLog ("Installing " +:+ packageName +:+ " with "
                              +:+ packageManager_name pm +:+ "...");
                  Spawn cmd args])).
Proof.
  unfold installDependency.
  destruct (commands packageName pm) as [cmd args].
  rewrite run_bind. unfold console_log at 1. cbv beta iota.
  rewrite run_bind. unfold spawn. cbn [host stdin trace record].
  destruct (host_spawn cmd args (host w)) as [event h].
  rewrite <- app_assoc.
  destruct event as [e|code]; [reflexivity|].
  case_bool_decide; reflexivity.
Qed.

(** C5.  The promise resolves exactly when the child reports exit code 0.
    On any other exit code [n] it rejects with an [Error] whose message is
    "Installation failed with code " followed by [n] in decimal, so the
    message contains that code; when a signal ended the child and the code
    is [null], the message ends in "null".  On a launch failure it rejects
    with the error the launch reported. *)
Theorem installDependency_settles (pm : packageManager) (packageName : string)
    (w : world env) :
  let event := (host_spawn (commands packageName pm).1
                           (commands packageName pm).2 (host w)).1 in
  let r := (installDependency pm packageName w).1 in
  (r = Resolved tt ↔ event = OnExit (Some 0%Z))
  ∧ (∀ n : Z, event = OnExit (Some n) → n ≠ 0%Z →
       r = Rejected (Error ("Installation failed with code " +:+ pretty n))
       ∧ ∃ message, r = Rejected (Error message) ∧ contains (pretty n) message)
  ∧ (event = OnExit None →
       r = Rejected (Error "Installation failed with code null"))
  ∧ (∀ e, event = OnError e → r = Rejected e).
Proof.
  cbv zeta. rewrite installDependency_run.
  destruct (commands packageName pm) as [cmd args]. cbn [fst snd].
  destruct (host_spawn cmd args (host w)) as [event h]. cbn [fst snd].
  destruct event as [e|[n|]].
  - repeat split; try discriminate.
    intros e' E. injection E as ->. reflexivity.
  - case_bool_decide as Hc.
    + injection Hc as ->. split; [done|].
      split; [|split; discriminate].
      intros n' E Hne. injection E as <-. contradiction.
    + assert (Hn : n ≠ 0%Z) by (intros ->; contradiction).
      split; [split; [discriminate | intros E; injection E as ->; contradiction]|].
      split; [|split; discriminate].
      intros n' E _. injection E as <-. split; [reflexivity|].
      eexists. split; [reflexivity | apply contains_suffix].
  - rewrite bool_decide_false by discriminate.
    repeat split; try discriminate.
Qed.

(** The decimal form of the codes the repository's tests use. *)
Example exit_codes_in_decimal :
  pretty <$> [1; 2; 127; 255]%Z = ["1"; "2"; "127"; "255"].
Proof. reflexivity. Qed.
End InstallerFacts.

(** The installer on three children: exit 0, exit 127, and a launch that
    fails because the program is not found. *)
Example installDependency_children :
  let run child :=
    (installDependency pnpm "prettier-plugin-tailwindcss"
       (World (InMemory.Mem ∅ ∅ false child) [] [])).1 in
  run (OnExit (Some 0%Z)) = Resolved tt
  ∧ run (OnExit (Some 127%Z))
    = Rejected (Error "Installation failed with code 127")
  ∧ run (OnExit None) = Rejected (Error "Installation failed with code null")
  ∧ run (OnError (SystemError "ENOENT")) = Rejected (SystemError "ENOENT").
Proof. repeat split; vm_compute; reflexivity. Qed.

(** ** The copier *)

Lemma run_bind_ret {env A} (m : IO env A) (w : world env) :
  (m ≫= mret) w = m w.
Proof. rewrite run_bind. destruct (m w) as [[a| |] w']; reflexivity. Qed.

Lemma run_bind_same {env A B} (m m' : IO env A) (f : A → IO env B) w :
  m w = m' w → (m ≫= f) w = (m' ≫= f) w.
Proof. intros E. rewrite !run_bind, E. reflexivity. Qed.

Section CopierFacts.
Context {env : Type} `{Host env}.

Lemma walk_app (before after : list visit) (overwriteAll : bool) (w : world env) :
  walk (before ++ after) overwriteAll w
  = (walk before overwriteAll ≫= walk after) w.
Proof.
  revert overwriteAll w.
  induction before as [|v before IH]; intros overwriteAll w.
  - reflexivity.
  - cbn [app walk]. rewrite run_bind_assoc.
    apply run_bind_ext. intros flag w'. apply IH.
Qed.

(** The recursive walk and its flattened form are the same computation. *)
Lemma copyDirectory_walk (dir : node) :
  ∀ (src : path) (overwriteAll : bool) (w : world env),
    copyDirectory src dir overwriteAll w
    = walk (visits src dir) overwriteAll w.
Proof.
  induction dir as [content|entries IH|e|e] using node_entries_ind;
    intros src overwriteAll w; try reflexivity.
  cbn [copyDirectory visits].
  revert overwriteAll w.
  induction IH as [|[entry n] rest Hn _ IHrest]; intros overwriteAll w.
  - reflexivity.
  - rewrite walk_app.
    etrans; [|apply run_bind_ext; intros flag w'; apply IHrest].
    apply run_bind_same. cbn [snd] in Hn.
    destruct n as [content|entries|e|e].
    + cbn [walk visit_one]. by rewrite run_bind_ret.
    + apply Hn.
    + apply Hn.
    + reflexivity.
Qed.

(** Where the walk stands when it arrives at a file. *)
Lemma copyDirectory_arrives src dir overwriteAll w relativePath content
    after flag w' :
  arrives src dir overwriteAll w relativePath content after flag w' →
  copyDirectory src dir overwriteAll w
  = (copyDirectory_file relativePath content flag ≫= walk after) w'.
Proof.
  intros (before & Hvisits & Hbefore).
  rewrite copyDirectory_walk, Hvisits, walk_app.
  rewrite (run_bind_resolved _ _ _ _ _ Hbefore). reflexivity.
Qed.

(** *** One file *)

Lemma copyInto_run (relativePath : path) (content : string) (w : world env) :
  copyInto relativePath content w =
  let '(r, h) := host_mkdir (dirname relativePath) (host w) in
  match r with
  | Ok _ =>
      let '(r', h') := host_copyFile relativePath content relativePath h in
      (settle r',
       World h' (stdin w)
         (trace w ++ [Mkdir (dirname relativePath);
                      CopyFile relativePath relativePath]))
  | Fail e =>
      (Rejected e, World h (stdin w) (trace w ++ [Mkdir (dirname relativePath)]))
  end.
Proof.
  unfold copyInto. rewrite run_bind. unfold mkdir, copyFile.
  destruct (host_mkdir (dirname relativePath) (host w)) as [[[]|e] h];
    cbn [settle host stdin trace]; [|reflexivity].
  destruct (host_copyFile relativePath content relativePath h) as [r' h'].
  by rewrite <- app_assoc.
Qed.

(** The destination cannot be reached: no question, straight to the copy. *)
Lemma copyDirectory_file_unreachable relativePath content overwriteAll
    (w : world env) e :
  host_access relativePath (host w) = Fail e →
  copyDirectory_file relativePath content overwriteAll w
  = (copyInto relativePath content ≫= λ _, mret overwriteAll)
      (record (Access relativePath) w).
Proof.
  intros E. unfold copyDirectory_file. rewrite run_bind.
  unfold try_catch. rewrite run_bind. unfold access. rewrite E.
  reflexivity.
Qed.

(** The destination exists and the flag is already set: no question. *)
Lemma copyDirectory_file_flagged relativePath content (w : world env) :
  host_access relativePath (host w) = Ok tt →
  copyDirectory_file relativePath content true w
  = (copyInto relativePath content ≫= λ _, mret true)
      (record (Access relativePath) w).
Proof.
  intros E. unfold copyDirectory_file. rewrite run_bind.
  unfold try_catch. rewrite run_bind. unfold access. rewrite E.
  reflexivity.
Qed.

(** The destination exists and the flag is not set: the answer to the
    question decides. *)
Lemma copyDirectory_file_asks relativePath content (w : world env) answer rest :
  host_access relativePath (host w) = Ok tt →
  stdin w = answer :: rest →
  copyDirectory_file relativePath content false w
  = let w' := World (host w) rest
                (trace w ++ [Access relativePath;
                             Question (promptOverwrite_query
                                         (show_path relativePath))]) in
    match promptOverwrite_answer answer with
    | All => (copyInto relativePath content ≫= λ _, mret true) w'
    | Overwrite true => (copyInto relativePath content ≫= λ _, mret false) w'
    | Overwrite false => (Resolved false, w')
    end.
Proof.
  intros E Hin. unfold copyDirectory_file. rewrite run_bind.
  unfold try_catch. rewrite run_bind. unfold access. rewrite E.
  cbn [settle negb]. rewrite run_bind. unfold promptOverwrite.
  rewrite run_bind. unfold question. cbn [stdin host trace record].
  rewrite Hin, <- app_assoc. cbn [app].
  destruct (promptOverwrite_answer answer) as [|[]]; reflexivity.
Qed.

(** *** Computations that never ask *)

Create HintDb silent.

Lemma silent_intro {A} (m : IO env A) :
  (∀ w, stdin (m w).2 = stdin w
        ∧ ∃ calls, trace (m w).2 = trace w ++ calls
                   ∧ Forall (λ c, is_question c = false) calls) →
  silent m.
Proof. intros Hm w r w' E. specialize (Hm w). by rewrite E in Hm. Qed.

Lemma silent_ret {A} (a : A) : silent (mret a : IO env A).
Proof.
  intros w r w' [= <- <-]. split; [done|]. exists []. by rewrite app_nil_r.
Qed.

Lemma silent_throw {A} (e : error) : silent (throw e : IO env A).
Proof.
  intros w r w' [= <- <-]. split; [done|]. exists []. by rewrite app_nil_r.
Qed.

Lemma silent_bind {A B} (m : IO env A) (f : A → IO env B) :
  silent m → (∀ a, silent (f a)) → silent (m ≫= f).
Proof.
  intros Hm Hf w r w'. rewrite run_bind.
  destruct (m w) as [[a|e|] w1] eqn:E; destruct (Hm _ _ _ E) as (Hin & calls & Ht & Hq).
  - intros E'. destruct (Hf _ _ _ _ E') as (Hin' & calls' & Ht' & Hq').
    split; [congruence|]. exists (calls ++ calls').
    split; [by rewrite Ht', Ht, app_assoc | by apply Forall_app].
  - intros [= <- <-]. eauto.
  - intros [= <- <-]. eauto.
Qed.

Lemma silent_try_catch {A} (body : IO env A) (handler : error → IO env A) :
  silent body → (∀ e, silent (handler e)) → silent (try_catch body handler).
Proof.
  intros Hm Hf w r w'. unfold try_catch.
  destruct (body w) as [[a|e|] w1] eqn:E; destruct (Hm _ _ _ E) as (Hin & calls & Ht & Hq).
  - intros [= <- <-]. eauto.
  - intros E'. destruct (Hf _ _ _ _ E') as (Hin' & calls' & Ht' & Hq').
    split; [congruence|]. exists (calls ++ calls').
    split; [by rewrite Ht', Ht, app_assoc | by apply Forall_app].
  - intros [= <- <-]. eauto.
Qed.

Lemma silent_access (p : path) : silent (access p).
Proof.
  apply silent_intro. intros w. split; [done|]. exists [Access p].
  split; [done | by repeat constructor].
Qed.

Lemma silent_copyInto (relativePath : path) (content : string) :
  silent (copyInto relativePath content).
Proof.
  apply silent_intro. intros w. rewrite copyInto_run.
  destruct (host_mkdir _ _) as [[[]|e] h].
  - destruct (host_copyFile _ _ _ _) as [r' h']. split; [done|].
    eexists. split; [done | by repeat constructor].
  - split; [done|]. eexists. split; [done | by repeat constructor].
Qed.

#[local] Hint Resolve silent_ret silent_throw silent_access silent_copyInto
  silent_try_catch silent_bind : silent.

Lemma silent_overwriteEach (vs : list visit) : silent (overwriteEach vs).
Proof.
  induction vs as [|[relativePath content|e] vs IH]; cbn [overwriteEach];
    auto 6 with silent.
Qed.

#[local] Hint Resolve silent_overwriteEach : silent.

Lemma calls_since_app (w w' : world env) (calls : list call) :
  trace w' = trace w ++ calls → calls_since w w' = calls.
Proof. intros E. unfold calls_since. rewrite E. apply drop_app_length. Qed.

Lemma run_bind_moved {A B} (m m' : IO env A) (f : A → IO env B) w w' :
  m w = m' w' → (m ≫= f) w = (m' ≫= f) w'.
Proof. intros E. rewrite !run_bind, E. reflexivity. Qed.

Lemma ignore_access (p : path) (w : world env) :
  try_catch (access p) (λ _, mret tt) w = (Resolved tt, record (Access p) w).
Proof.
  unfold try_catch, access.
  destruct (host_access p (host w)) as [[]|e]; reflexivity.
Qed.

Lemma walk_after_copy relativePath content flag (vs : list visit) (w : world env) :
  ((copyInto relativePath content ≫= λ _, mret flag) ≫= walk vs) w
  = (copyInto relativePath content ≫= λ _, walk vs flag) w.
Proof. rewrite run_bind_assoc. apply run_bind_ext. reflexivity. Qed.

Lemma resolves_to_constant {A B} (m : IO env A) (b b' : B) (w w' : world env) :
  (m ≫= λ _, mret b) w = (Resolved b', w') → b' = b.
Proof.
  rewrite run_bind. destruct (m w) as [[a| |] w1]; [|discriminate..].
  by intros [= <- _].
Qed.

(** With the flag set, the walk is the copier that never asks, and hands
    the flag back set. *)
Lemma walk_flagged (vs : list visit) (w : world env) :
  walk vs true w = (overwriteEach vs ≫= λ _, mret true) w.
Proof.
  revert w. induction vs as [|[relativePath content|e] vs IH]; intros w;
    [reflexivity| |reflexivity].
  cbn [walk visit_one overwriteEach].
  rewrite (run_bind_assoc (try_catch _ _)).
  rewrite (run_bind_resolved _ _ _ _ _ (ignore_access relativePath w)).
  rewrite run_bind_assoc.
  trans ((copyInto relativePath content ≫= λ _, walk vs true)
           (record (Access relativePath) w)).
  - rewrite <- walk_after_copy. apply run_bind_moved.
    destruct (host_access relativePath (host w)) as [[]|e] eqn:E.
    + by apply copyDirectory_file_flagged.
    + by eapply copyDirectory_file_unreachable.
  - apply run_bind_ext. intros [] w'. apply IH.
Qed.

Lemma copy_then_flag relativePath content (flag : bool) (w : world env)
    (r : outcome bool) w' :
  (copyInto relativePath content ≫= λ _, mret flag) w = (r, w') →
  stdin w' = stdin w
  ∧ ∃ calls, trace w' = trace w ++ calls
     ∧ Forall (λ c, is_question c = false) calls
     ∧ ∀ b, r = Resolved b →
         b = flag
         ∧ calls = [Mkdir (dirname relativePath);
                    CopyFile relativePath relativePath].
Proof.
  rewrite run_bind, copyInto_run.
  destruct (host_mkdir _ _) as [[[]|e] h].
  - destruct (host_copyFile _ _ _ _) as [[[]|e] h']; intros [= <- <-];
      (split; [done|]); eexists; (split; [done|]);
      (split; [by repeat constructor|]); intros b [= <-]; done.
  - intros [= <- <-]. split; [done|]. eexists. split; [done|].
    split; [by repeat constructor|]. intros b [=].
Qed.

(** What one visit does when the destination cannot be reached, whatever
    the reason. *)
Lemma copyDirectory_file_unreachable_calls relativePath content flag
    (w : world env) e r w' :
  host_access relativePath (host w) = Fail e →
  copyDirectory_file relativePath content flag w = (r, w') →
  stdin w' = stdin w
  ∧ Forall (λ c, is_question c = false) (calls_since w w')
  ∧ ∀ b, r = Resolved b →
      b = flag
      ∧ calls_since w w' = [Access relativePath;
                            Mkdir (dirname relativePath);
                            CopyFile relativePath relativePath].
Proof.
  intros E. rewrite (copyDirectory_file_unreachable _ _ _ _ _ E).
  intros Hrun. apply copy_then_flag in Hrun as (Hin & calls & Ht & Hq & Hb).
  cbn [record stdin trace] in Hin, Ht. rewrite <- app_assoc in Ht.
  rewrite (calls_since_app _ _ _ Ht). split; [done|].
  split; [by constructor|].
  intros b Hr. destruct (Hb b Hr) as [-> ->]. done.
Qed.

(** *** The claims about the walk *)

(** C2.  Once a conflict is answered "all", the rest of the walk is the
    copier that never asks: the conflicting file and every file still to
    visit, in whatever directory, is copied after at most a look at its
    destination; no further line is read and no further question printed;
    and a walk that completes returns [true]. *)
Theorem copyDirectory_all_is_sticky src dir overwriteAll (w : world env)
    relativePath content after w1 answer rest :
  arrives src dir overwriteAll w relativePath content after false w1 →
  host_access relativePath (host w1) = Ok tt →
  stdin w1 = answer :: rest →
  promptOverwrite_answer answer = All →
  let w2 := World (host w1) rest
              (trace w1 ++ [Access relativePath;
                            Question (promptOverwrite_query
                                        (show_path relativePath))]) in
  copyDirectory src dir overwriteAll w
  = (copyInto relativePath content;; overwriteEach after;; mret true) w2
  ∧ ∀ r w', copyDirectory src dir overwriteAll w = (r, w') →
      stdin w' = rest
      ∧ Forall (λ c, is_question c = false) (calls_since w2 w')
      ∧ ∀ b, r = Resolved b → b = true.
Proof.
  intros Harrives Haccess Hin Hall w2.
  assert (Hrun : copyDirectory src dir overwriteAll w
    = (copyInto relativePath content;; overwriteEach after;; mret true) w2).
  { rewrite (copyDirectory_arrives _ _ _ _ _ _ _ _ _ Harrives).
    etrans.
    { apply run_bind_moved.
      rewrite (copyDirectory_file_asks _ _ _ _ _ Haccess Hin), Hall.
      reflexivity. }
    rewrite walk_after_copy. apply run_bind_ext. intros [] w'.
    apply walk_flagged. }
  split; [exact Hrun|]. intros r w'. rewrite Hrun. intros Hend.
  assert (Hs : silent (copyInto relativePath content;;
                       overwriteEach after;; mret true : IO env bool)).
  { auto 6 with silent. }
  destruct (Hs _ _ _ Hend) as (Hstdin & calls & Ht & Hq).
  rewrite (calls_since_app _ _ _ Ht). split; [done|]. split; [done|].
  intros b ->.
  rewrite <- (run_bind_assoc (copyInto relativePath content)
                (λ _, overwriteEach after) (λ _, mret true)) in Hend.
  by apply resolves_to_constant in Hend.
Qed.

(** C6.  A file whose destination does not exist is copied without a
    question, whatever the flag: the visit is the look-up followed by
    [mkdir] and [copyFile], it reads no input, and when it completes the
    flag is as it was. *)
Theorem copyDirectory_copies_new_file src dir overwriteAll (w : world env)
    relativePath content after flag w1 :
  arrives src dir overwriteAll w relativePath content after flag w1 →
  host_access relativePath (host w1) = Fail (SystemError "ENOENT") →
  let w2 := record (Access relativePath) w1 in
  copyDirectory_file relativePath content flag w1
  = (copyInto relativePath content;; mret flag) w2
  ∧ copyDirectory src dir overwriteAll w
    = (copyInto relativePath content;; walk after flag) w2
  ∧ ∀ r w', copyDirectory_file relativePath content flag w1 = (r, w') →
      stdin w' = stdin w1
      ∧ Forall (λ c, is_question c = false) (calls_since w1 w')
      ∧ ∀ b, r = Resolved b →
          b = flag
          ∧ calls_since w1 w' = [Access relativePath;
                                 Mkdir (dirname relativePath);
                                 CopyFile relativePath relativePath].
Proof.
  intros Harrives Haccess w2. split; [|split].
  - by eapply copyDirectory_file_unreachable.
  - rewrite (copyDirectory_arrives _ _ _ _ _ _ _ _ _ Harrives).
    rewrite <- walk_after_copy. apply run_bind_moved.
    by eapply copyDirectory_file_unreachable.
  - intros r w'. by eapply copyDirectory_file_unreachable_calls.
Qed.

(** C7.  When the destination exists and the answer means no, the visit
    ends after the look-up and the question: the host is as it was, so the
    existing file keeps its contents, nothing is copied, the flag stays
    unset, and the walk goes on with the next file. *)
Theorem copyDirectory_keeps_file_on_no src dir overwriteAll (w : world env)
    relativePath content after w1 answer rest :
  arrives src dir overwriteAll w relativePath content after false w1 →
  host_access relativePath (host w1) = Ok tt →
  stdin w1 = answer :: rest →
  promptOverwrite_answer answer = Overwrite false →
  ∃ w2,
    copyDirectory_file relativePath content false w1 = (Resolved false, w2)
    ∧ host w2 = host w1
    ∧ stdin w2 = rest
    ∧ calls_since w1 w2
      = [Access relativePath;
         Question (promptOverwrite_query (show_path relativePath))]
    ∧ copyDirectory src dir overwriteAll w = walk after false w2.
Proof.
  intros Harrives Haccess Hin Hno.
  pose proof (copyDirectory_file_asks relativePath content _ _ _ Haccess Hin)
    as Hstep.
  rewrite Hno in Hstep. cbv zeta in Hstep.
  eexists. split; [exact Hstep|]. split; [reflexivity|].
  split; [reflexivity|].
  split; [by apply calls_since_app|].
  rewrite (copyDirectory_arrives _ _ _ _ _ _ _ _ _ Harrives).
  by rewrite (run_bind_resolved _ _ _ _ _ Hstep).
Qed.

(** C10.  Whatever error the look-up of the destination reports, the visit
    goes the way of a destination that does not exist: the error is
    dropped, no question is asked, and [mkdir] and [copyFile] are called
    with the flag left as it was. *)
Theorem copyDirectory_swallows_access_error src dir overwriteAll
    (w : world env) relativePath content after flag w1 e :
  arrives src dir overwriteAll w relativePath content after flag w1 →
  host_access relativePath (host w1) = Fail e →
  let w2 := record (Access relativePath) w1 in
  copyDirectory_file relativePath content flag w1
  = (copyInto relativePath content;; mret flag) w2
  ∧ copyDirectory src dir overwriteAll w
    = (copyInto relativePath content;; walk after flag) w2
  ∧ ∀ r w', copyDirectory_file relativePath content flag w1 = (r, w') →
      stdin w' = stdin w1
      ∧ Forall (λ c, is_question c = false) (calls_since w1 w')
      ∧ ∀ b, r = Resolved b →
          b = flag
          ∧ calls_since w1 w' = [Access relativePath;
                                 Mkdir (dirname relativePath);
                                 CopyFile relativePath relativePath].
Proof.
  intros Harrives Haccess w2. split; [|split].
  - by eapply copyDirectory_file_unreachable.
  - rewrite (copyDirectory_arrives _ _ _ _ _ _ _ _ _ Harrives).
    rewrite <- walk_after_copy. apply run_bind_moved.
    by eapply copyDirectory_file_unreachable.
  - intros r w'. by eapply copyDirectory_file_unreachable_calls.
Qed.
End CopierFacts.

(** *** The walk on a concrete tree *)

Example templates_visits :
  visits [] InMemory.templates
  = [VisitFile ["a.txt"] "A"; VisitFile ["sub"; "b.txt"] "B";
     VisitFile ["c.txt"] "C"].
Proof. reflexivity. Qed.

(** [sub/b.txt] and [c.txt] exist already.  The walk copies [a.txt],
    asks about [sub/b.txt], and the answer "a" settles [c.txt] too. *)
Lemma copyDirectory_all_is_sticky_witness :
  let w := InMemory.start [(["sub"; "b.txt"], "old"); (["c.txt"], "old")] ["a"] in
  let w1 := (walk [VisitFile ["a.txt"] "A"] false w).2 in
  let w2 := World (host w1) []
              (trace w1 ++ [Access ["sub"; "b.txt"];
                            Question (promptOverwrite_query
                                        (show_path ["sub"; "b.txt"]))]) in
  copyDirectory [] InMemory.templates false w
  = (copyInto ["sub"; "b.txt"] "B";;
     overwriteEach [VisitFile ["c.txt"] "C"];;
     mret true) w2
  ∧ ∀ r w', copyDirectory [] InMemory.templates false w = (r, w') →
      stdin w' = []
      ∧ Forall (λ c, is_question c = false) (calls_since w2 w')
      ∧ ∀ b, r = Resolved b → b = true.
Proof.
  intros w w1 w2.
  apply (copyDirectory_all_is_sticky [] InMemory.templates false w
           ["sub"; "b.txt"] "B" [VisitFile ["c.txt"] "C"] w1 "a" []).
  - exists [VisitFile ["a.txt"] "A"]. split; [reflexivity|].
    vm_compute. reflexivity.
  - vm_compute. reflexivity.
  - vm_compute. reflexivity.
  - vm_compute. reflexivity.
Defined.

(** The same run from end to end: one question, three copies, [true]. *)
Example copyDirectory_all_run :
  let w := InMemory.start [(["sub"; "b.txt"], "old"); (["c.txt"], "old")] ["a"] in
  (copyDirectory [] InMemory.templates false w).1 = Resolved true
  ∧ trace (copyDirectory [] InMemory.templates false w).2
    = [Access ["a.txt"]; Mkdir []; CopyFile ["a.txt"] ["a.txt"];
       Access ["sub"; "b.txt"];
       Question (promptOverwrite_query (show_path ["sub"; "b.txt"]));
       Mkdir ["sub"]; CopyFile ["sub"; "b.txt"] ["sub"; "b.txt"];
       Access ["c.txt"]; Mkdir []; CopyFile ["c.txt"] ["c.txt"]]
  ∧ (λ p, InMemory.files
             (host (copyDirectory [] InMemory.templates false w).2) !! p)
    <$> [["a.txt"]; ["sub"; "b.txt"]; ["c.txt"]]
    = [Some "A"; Some "B"; Some "C"].
Proof. cbv zeta. repeat split; vm_compute; reflexivity. Qed.

(** Scenario A of the specification: an empty destination, every file
    copied, [sub] created on the way, no question asked. *)
Example copyDirectory_scenario_A :
  let w := InMemory.start [] [] in
  (copyDirectory [] InMemory.templates false w).1 = Resolved false
  ∧ trace (copyDirectory [] InMemory.templates false w).2
    = [Access ["a.txt"]; Mkdir []; CopyFile ["a.txt"] ["a.txt"];
       Access ["sub"; "b.txt"]; Mkdir ["sub"];
       CopyFile ["sub"; "b.txt"] ["sub"; "b.txt"];
       Access ["c.txt"]; Mkdir []; CopyFile ["c.txt"] ["c.txt"]].
Proof. split; vm_compute; reflexivity. Qed.

(** Nothing exists in the destination: [sub/b.txt] is reached after
    [a.txt] was copied, and is copied in turn. *)
Lemma copyDirectory_copies_new_file_witness :
  let w := InMemory.start [] [] in
  let w1 := (walk [VisitFile ["a.txt"] "A"] false w).2 in
  let w2 := record (Access ["sub"; "b.txt"]) w1 in
  copyDirectory_file ["sub"; "b.txt"] "B" false w1
  = (copyInto ["sub"; "b.txt"] "B";; mret false) w2
  ∧ copyDirectory [] InMemory.templates false w
    = (copyInto ["sub"; "b.txt"] "B";;
       walk [VisitFile ["c.txt"] "C"] false) w2
  ∧ ∀ r w', copyDirectory_file ["sub"; "b.txt"] "B" false w1 = (r, w') →
      stdin w' = stdin w1
      ∧ Forall (λ c, is_question c = false) (calls_since w1 w')
      ∧ ∀ b, r = Resolved b →
          b = false
          ∧ calls_since w1 w' = [Access ["sub"; "b.txt"]; Mkdir ["sub"];
                                 CopyFile ["sub"; "b.txt"] ["sub"; "b.txt"]].
Proof.
  intros w w1 w2.
  apply (copyDirectory_copies_new_file [] InMemory.templates false w
           ["sub"; "b.txt"] "B" [VisitFile ["c.txt"] "C"] false w1).
  - exists [VisitFile ["a.txt"] "A"]. split; [reflexivity|].
    vm_compute. reflexivity.
  - vm_compute. reflexivity.
Defined.

(** [sub/b.txt] exists and the answer is "n". *)
Lemma copyDirectory_keeps_file_on_no_witness :
  let w := InMemory.start [(["sub"; "b.txt"], "mine")] ["n"] in
  let w1 := (walk [VisitFile ["a.txt"] "A"] false w).2 in
  ∃ w2,
    copyDirectory_file ["sub"; "b.txt"] "B" false w1 = (Resolved false, w2)
    ∧ host w2 = host w1
    ∧ stdin w2 = []
    ∧ calls_since w1 w2
      = [Access ["sub"; "b.txt"];
         Question (promptOverwrite_query (show_path ["sub"; "b.txt"]))]
    ∧ copyDirectory [] InMemory.templates false w
      = walk [VisitFile ["c.txt"] "C"] false w2.
Proof.
  intros w w1.
  apply (copyDirectory_keeps_file_on_no [] InMemory.templates false w
           ["sub"; "b.txt"] "B" [VisitFile ["c.txt"] "C"] w1 "n" []).
  - exists [VisitFile ["a.txt"] "A"]. split; [reflexivity|].
    vm_compute. reflexivity.
  - vm_compute. reflexivity.
  - vm_compute. reflexivity.
  - vm_compute. reflexivity.
Defined.

(** [a.txt] exists, but looking it up is denied: it is overwritten without
    a question. *)
Lemma copyDirectory_swallows_access_error_witness :
  let w := World (InMemory.Mem {[ ["a.txt"] := "mine" ]} {[ ["a.txt"] ]}
                    false (OnExit (Some 0%Z))) ["n"] [] in
  let w2 := record (Access ["a.txt"]) w in
  copyDirectory_file ["a.txt"] "A" false w
  = (copyInto ["a.txt"] "A";; mret false) w2
  ∧ copyDirectory [] InMemory.templates false w
    = (copyInto ["a.txt"] "A";;
       walk [VisitFile ["sub"; "b.txt"] "B"; VisitFile ["c.txt"] "C"] false) w2
  ∧ ∀ r w', copyDirectory_file ["a.txt"] "A" false w = (r, w') →
      stdin w' = stdin w
      ∧ Forall (λ c, is_question c = false) (calls_since w w')
      ∧ ∀ b, r = Resolved b →
          b = false
          ∧ calls_since w w' = [Access ["a.txt"]; Mkdir [];
                                CopyFile ["a.txt"] ["a.txt"]].
Proof.
  intros w w2.
  apply (copyDirectory_swallows_access_error [] InMemory.templates false w
           ["a.txt"] "A"
           [VisitFile ["sub"; "b.txt"] "B"; VisitFile ["c.txt"] "C"]
           false w (SystemError "EACCES")).
  - exists []. split; reflexivity.
  - vm_compute. reflexivity.
Defined.

(** ** The manifest patcher *)

Section MemberFacts.
Context {A : Type}.
Implicit Types (members : list (string * A)) (key : string) (v : A).

Lemma member_assign key v members : member key (assign key v members) = Some v.
Proof.
  induction members as [|[k x] members IH]; cbn [assign member].
  - by rewrite decide_True.
  - destruct (decide (k = key)) as [->|Hne]; cbn [member].
    + by rewrite decide_True.
    + by rewrite decide_False.
Qed.

Lemma member_assign_other key key' v members :
  key' ≠ key → member key' (assign key v members) = member key' members.
Proof.
  intros Hne. induction members as [|[k x] members IH]; cbn [assign member].
  - by rewrite decide_False.
  - destruct (decide (k = key)) as [->|Hk]; cbn [member].
    + by rewrite !decide_False.
    + by rewrite IH.
Qed.

Lemma member_None key members : member key members = None ↔ key ∉ keys members.
Proof.
  unfold keys. induction members as [|[k x] members IH]; cbn [member fmap list_fmap fst].
  - split; [intros _; apply not_elem_of_nil | done].
  - rewrite not_elem_of_cons. destruct (decide (k = key)) as [->|Hk].
    + split; [done | intros [? _]; done].
    + rewrite IH. split; [intros ?; split; [congruence | done] | intros [_ ?]; done].
Qed.

(** An assignment keeps every key where it was and puts a new key last. *)
Lemma keys_assign key v members :
  keys (assign key v members)
  = keys members ++ (if decide (key ∈ keys members) then [] else [key]).
Proof.
  unfold keys. induction members as [|[k x] members IH]; cbn [assign fmap list_fmap fst app].
  - rewrite decide_False; [done | apply not_elem_of_nil].
  - destruct (decide (k = key)) as [->|Hk]; cbn [fmap list_fmap fst app].
    + rewrite decide_True; [by rewrite app_nil_r | by left].
    + rewrite IH. f_equal. f_equal.
      destruct (decide (key ∈ members.*1)) as [Hin|Hin].
      * rewrite decide_True; [done | by right].
      * rewrite decide_False; [done|]. rewrite not_elem_of_cons. done.
Qed.

Lemma assign_assign key v v' members :
  assign key v (assign key v' members) = assign key v members.
Proof.
  induction members as [|[k x] members IH]; cbn [assign].
  - by rewrite decide_True.
  - destruct (decide (k = key)) as [->|Hk]; cbn [assign].
    + by rewrite decide_True.
    + by rewrite decide_False, IH.
Qed.

Lemma assign_not_nil key v members : assign key v members ≠ [].
Proof.
  destruct members as [|[k x] members]; cbn [assign]; [done|].
  by destruct (decide (k = key)).
Qed.
End MemberFacts.

Lemma append_assoc (a b c : string) : (a +:+ b) +:+ c = a +:+ (b +:+ c).
Proof.
  induction a as [|x a IH]; [reflexivity|].
  change (String x ((a +:+ b) +:+ c) = String x (a +:+ (b +:+ c))).
  by rewrite IH.
Qed.

Section JsonFacts.
Context {num : Type} `{JsonLib num}.
Implicit Types (members scripts : list (string * value num)).

Lemma setScript_object members scripts key text :
  member "scripts" members = Some (JObject scripts) →
  setScript (JObject members) key text
  = Ok (JObject (assign "scripts"
                   (JObject (assign key (JString text) scripts)) members)).
Proof. intros E. unfold setScript. cbn. rewrite E. reflexivity. Qed.

(** Lines 153-158 on an object whose [scripts] can take the two entries. *)
Lemma addScripts_object members scripts :
  scripts_of members = Some scripts →
  addScripts (JObject members)
  = Ok (JObject
          (assign "scripts"
             (JObject (assign "format:check" (JString "prettier --check .")
                         (assign "format" (JString "prettier --write .")
                            scripts)))
             members)).
Proof.
  unfold scripts_of, addScripts. cbn [Get mbind result_bind].
  assert (Hfresh : ∀ ms : list (string * value num),
    (setScript (JObject (assign "scripts" (JObject []) ms)) "format"
       "prettier --write ."
     ≫= λ packageJson, setScript packageJson "format:check" "prettier --check .")
    = Ok (JObject
            (assign "scripts"
               (JObject (assign "format:check" (JString "prettier --check .")
                           (assign "format" (JString "prettier --write .") [])))
               ms))).
  { intros ms.
    rewrite (setScript_object _ [] _ _ (member_assign _ _ _)).
    cbn [mbind result_bind].
    rewrite (setScript_object _ _ _ _ (member_assign _ _ _)).
    by rewrite !assign_assign. }
  destruct (member "scripts" members) as [v|] eqn:E.
  - destruct v as [|b|n|s|elements named|sm];
      try (destruct (ToBoolean _) eqn:Et; [discriminate|];
           intros [= <-]; cbn [negb Put mbind result_bind]; apply Hfresh).
    intros [= <-]. cbn [ToBoolean negb mbind result_bind].
    rewrite (setScript_object _ _ _ _ E). cbn [mbind result_bind].
    rewrite (setScript_object _ _ _ _ (member_assign _ _ _)).
    by rewrite assign_assign.
  - intros [= <-]. cbn [ToBoolean negb Put mbind result_bind]. apply Hfresh.
Qed.

(** The layout of a non-empty object under a non-empty gap. *)
Lemma serialize_object gap indent members :
  gap ≠ EmptyString → members ≠ [] →
  SerializeJSONProperty gap indent (JObject members)
  = "{" +:+ LF +:+ (indent +:+ gap)
    +:+ String.concat ("," +:+ LF +:+ (indent +:+ gap))
          (map (member_line gap (indent +:+ gap)) members)
    +:+ LF +:+ indent +:+ "}".
Proof.
  intros Hgap Hne. cbn [SerializeJSONProperty].
  assert (Hlines :
    map (λ m, QuoteJSONString m.1 +:+ ":"
              +:+ (if decide (gap = EmptyString) then EmptyString else " ")
              +:+ SerializeJSONProperty gap (indent +:+ gap) m.2) members
    = map (member_line gap (indent +:+ gap)) members).
  { apply map_ext. intros m. unfold member_line.
    by rewrite decide_False. }
  rewrite Hlines. destruct members as [|m members]; [done|].
  cbn [map]. by rewrite decide_False.
Qed.
End JsonFacts.

Section PatcherFacts.
Context {env : Type} `{Host env} {num : Type} `{JsonLib num}.

(** Every path through [updatePackageJson]: it always resolves; what it
    calls and prints depends on the read, on the parse and the additions,
    and on the write. *)
Lemma updatePackageJson_run (w : world env) :
  updatePackageJson w =
  let p := ["package.json"] in
  let skipped :=
    (Resolved tt,
     World (host w) (stdin w) (trace w ++ [ReadFile p; ConsoleLog skip_message]))
  in
  match host_readFile p (host w) with
  | Fail _ => skipped
  | Ok content =>
      match JSON_parse content ≫= addScripts with
      | Fail _ => skipped
      | Ok packageJson =>
          let text := JSON_stringify packageJson 2 +:+ LF in
          let '(r, h) := host_writeFile p text (host w) in
          (Resolved tt,
           World h (stdin w)
             (trace w ++ [ReadFile p; WriteFile p text;
                          ConsoleLog (match r with
                                      | Ok _ => success_message
                                      | Fail _ => skip_message
                                      end)]))
      end
  end.
Proof.
  unfold updatePackageJson, try_catch. cbv zeta.
  rewrite run_bind. unfold readFile.
  destruct (host_readFile ["package.json"] (host w)) as [content|e];
    cbn [settle]; [|unfold console_log, record; cbn; by rewrite <- app_assoc].
  rewrite run_bind. unfold sync at 1.
  destruct (JSON_parse content) as [doc|e]; cbn [settle mbind result_bind];
    [|unfold console_log, record; cbn; by rewrite <- app_assoc].
  rewrite run_bind. unfold sync at 1.
  destruct (addScripts doc) as [doc'|e]; cbn [settle];
    [|unfold console_log, record; cbn; by rewrite <- app_assoc].
  rewrite run_bind. unfold writeFile. cbn [record host stdin trace].
  destruct (host_writeFile _ _ _) as [[[]|e] h]; cbn [settle];
    unfold console_log, record; cbn; by rewrite <- !app_assoc.
Qed.
(** C9.  When the manifest cannot be read, or is read but does not parse,
    the patcher resolves; its only calls are the read and one diagnostic
    line, so no write is attempted and the host is as it was. *)
Theorem updatePackageJson_skips_unreadable (w : world env) :
  (∃ e, host_readFile ["package.json"] (host w) = Fail e)
  ∨ (∃ content e, host_readFile ["package.json"] (host w) = Ok content
                  ∧ JSON_parse content = Fail e) →
  updatePackageJson w
  = (Resolved tt,
     World (host w) (stdin w)
       (trace w ++ [ReadFile ["package.json"]; ConsoleLog skip_message])).
Proof.
  rewrite updatePackageJson_run. cbv zeta.
  intros [[e ->]|(content & e & -> & ->)]; reflexivity.
Qed.

(** C1, as the code has it.  After a successful read, parse and addition
    of the scripts, a failing write is caught by the same handler as a
    failing read: the patcher resolves, and the line it prints is the one
    for a missing manifest, not the success line. *)
Theorem updatePackageJson_swallows_write_error (w : world env)
    content packageJson packageJson' e h :
  host_readFile ["package.json"] (host w) = Ok content →
  JSON_parse content = Ok packageJson →
  addScripts packageJson = Ok packageJson' →
  host_writeFile ["package.json"] (JSON_stringify packageJson' 2 +:+ LF)
    (host w) = (Fail e, h) →
  updatePackageJson w
  = (Resolved tt,
     World h (stdin w)
       (trace w ++ [ReadFile ["package.json"];
                    WriteFile ["package.json"]
                      (JSON_stringify packageJson' 2 +:+ LF);
                    ConsoleLog skip_message])).
Proof.
  intros Hread Hparse Hadd Hwrite.
  rewrite updatePackageJson_run. cbv zeta.
  rewrite Hread, Hparse. cbn [mbind result_bind]. rewrite Hadd, Hwrite.
  reflexivity.
Qed.

(** C8, as the code has it.  For a manifest that parses to an object whose
    [scripts] is missing, falsy or itself an object, the text handed to
    [writeFile] is the serialization of an object in which [scripts] holds
    the two fixed entries, every other member of the manifest and of
    [scripts] has the value it had, the keys that were there keep their
    order with new keys after them, and the layout is: members on lines
    indented by two spaces per level, the closing brace on a line of its
    own, and one newline after it. *)
Theorem updatePackageJson_adds_scripts (w : world env) content members scripts :
  host_readFile ["package.json"] (host w) = Ok content →
  JSON_parse content = Ok (JObject members) →
  scripts_of members = Some scripts →
  ∃ members' scripts' text message,
    calls_since w (updatePackageJson w).2
    = [ReadFile ["package.json"]; WriteFile ["package.json"] text;
       ConsoleLog message]
    ∧ text = JSON_stringify (JObject members') 2 +:+ LF
    ∧ member "scripts" members' = Some (JObject scripts')
    ∧ member "format" scripts' = Some (JString "prettier --write .")
    ∧ member "format:check" scripts' = Some (JString "prettier --check .")
    ∧ (∀ key, key ≠ "scripts" → member key members' = member key members)
    ∧ (∀ key, key ≠ "format" → key ≠ "format:check" →
         member key scripts' = member key scripts)
    ∧ keys members'
      = keys members
        ++ (if decide ("scripts" ∈ keys members) then [] else ["scripts"])
    ∧ keys scripts'
      = keys scripts
        ++ (if decide ("format" ∈ keys scripts) then [] else ["format"])
        ++ (if decide ("format:check" ∈ keys scripts) then []
            else ["format:check"])
    ∧ text
      = "{" +:+ LF +:+ "  "
        +:+ String.concat ("," +:+ LF +:+ "  ")
              (map (member_line "  " "  ") members')
        +:+ LF +:+ "}" +:+ LF
    ∧ SerializeJSONProperty "  " "  " (JObject scripts')
      = "{" +:+ LF +:+ "    "
        +:+ String.concat ("," +:+ LF +:+ "    ")
              (map (member_line "  " "    ") scripts')
        +:+ LF +:+ "  }".
Proof.
  intros Hread Hparse Hscripts.
  set (scripts' := assign "format:check" (JString "prettier --check .")
                     (assign "format" (JString "prettier --write .") scripts)).
  set (members' := assign "scripts" (JObject scripts') members).
  pose proof (updatePackageJson_run w) as Hrun. cbv zeta in Hrun.
  rewrite Hread, Hparse in Hrun. cbn [mbind result_bind] in Hrun.
  rewrite (addScripts_object _ _ Hscripts) in Hrun.
  fold scripts' members' in Hrun.
  destruct (host_writeFile _ _ _) as [r h].
  exists members', scripts', (JSON_stringify (JObject members') 2 +:+ LF).
  eexists. split; [rewrite Hrun; by apply calls_since_app|].
  split; [reflexivity|].
  split; [apply member_assign|].
  split; [unfold scripts'; rewrite member_assign_other by done;
          apply member_assign|].
  split; [apply member_assign|].
  split; [intros key Hk; by apply member_assign_other|].
  split; [intros key Hk Hk'; unfold scripts';
          by rewrite !member_assign_other|].
  split; [apply keys_assign|].
  split.
  { unfold scripts'. rewrite !keys_assign, <- app_assoc. do 2 f_equal.
    destruct (decide ("format" ∈ keys scripts)).
    - rewrite app_nil_r. reflexivity.
    - destruct (decide ("format:check" ∈ keys scripts)) as [Hin|Hin].
      + rewrite decide_True; [done | apply elem_of_app; by left].
      + rewrite decide_False; [done|].
        rewrite elem_of_app, list_elem_of_singleton. intros [?|?]; done. }
  split.
  - unfold JSON_stringify.
    change (spaces (2 `min` 10)) with "  ".
    rewrite serialize_object; [|done | apply assign_not_nil].
    change (EmptyString +:+ "  ") with "  ".
    by rewrite !append_assoc.
  - rewrite serialize_object; [|done | apply assign_not_nil].
    reflexivity.
Qed.
End PatcherFacts.

(** *** The patcher on concrete manifests *)

(** No manifest in the target directory. *)
Lemma updatePackageJson_skips_unreadable_witness :
  let w := InMemory.start [] [] in
  updatePackageJson (num := Z) w
  = (Resolved tt,
     World (host w) [] [ReadFile ["package.json"]; ConsoleLog skip_message]).
Proof.
  intros w. apply (updatePackageJson_skips_unreadable (num := Z) w).
  left. exists (SystemError "ENOENT"). vm_compute. reflexivity.
Defined.

(** A manifest that does not parse is skipped like a missing one. *)
Example updatePackageJson_skips_unparsable :
  let w := InMemory.start [(["package.json"], "invalid json content")] [] in
  updatePackageJson (num := Z) w
  = (Resolved tt,
     World (host w) [] [ReadFile ["package.json"]; ConsoleLog skip_message]).
Proof. vm_compute. reflexivity. Qed.

(** The target directory is read-only: the write fails with EROFS. *)
Lemma updatePackageJson_swallows_write_error_witness :
  updatePackageJson (num := Z) InMemory.readonly_world
  = (Resolved tt,
     World (host InMemory.readonly_world) []
       [ReadFile ["package.json"];
        WriteFile ["package.json"]
          (JSON_stringify InMemory.bare_manifest_patched 2 +:+ LF);
        ConsoleLog skip_message]).
Proof.
  apply (updatePackageJson_swallows_write_error InMemory.readonly_world
           InMemory.bare_manifest_text InMemory.bare_manifest
           InMemory.bare_manifest_patched (SystemError "EROFS") (host InMemory.readonly_world));
    vm_compute; reflexivity.
Defined.

Lemma readonly_world_run :
  updatePackageJson (num := Z) InMemory.readonly_world
  = (Resolved tt,
     World (host InMemory.readonly_world) []
       [ReadFile ["package.json"];
        WriteFile ["package.json"]
          (JSON_stringify InMemory.bare_manifest_patched 2 +:+ LF);
        ConsoleLog skip_message]).
Proof. vm_compute. reflexivity. Qed.

(** C1, as the claim words it, fails: the manifest is read and parsed, the
    write is attempted and fails, and the promise resolves all the same. *)
Lemma updatePackageJson_write_error_is_not_fatal :
  host_readFile ["package.json"] (host InMemory.readonly_world)
  = Ok InMemory.bare_manifest_text
  ∧ JSON_parse InMemory.bare_manifest_text = Ok InMemory.bare_manifest
  ∧ (host_writeFile ["package.json"]
       (JSON_stringify InMemory.bare_manifest_patched 2 +:+ LF)
       (host InMemory.readonly_world)).1 = Fail (SystemError "EROFS")
  ∧ WriteFile ["package.json"] (JSON_stringify InMemory.bare_manifest_patched 2 +:+ LF)
    ∈ trace (updatePackageJson (num := Z) InMemory.readonly_world).2
  ∧ (updatePackageJson (num := Z) InMemory.readonly_world).1 = Resolved tt
  ∧ ¬ ∃ e, (updatePackageJson (num := Z) InMemory.readonly_world).1 = Rejected e.
Proof.
  rewrite readonly_world_run.
  repeat split; try (vm_compute; reflexivity).
  - cbn [snd trace]. set_solver.
  - intros [e E]. discriminate E.
Qed.

(** The manifest of the specification's scenario C. *)
Lemma updatePackageJson_adds_scripts_witness :
  let w := InMemory.start [(["package.json"], InMemory.manifest_text)] [] in
  let members : list (string * value Z) :=
    [("name", JString "p"); ("scripts", JObject [("test", JString "x")])] in
  let scripts : list (string * value Z) := [("test", JString "x")] in
  ∃ members' scripts' text message,
    calls_since w (updatePackageJson (num := Z) w).2
    = [ReadFile ["package.json"]; WriteFile ["package.json"] text;
       ConsoleLog message]
    ∧ text = JSON_stringify (JObject members') 2 +:+ LF
    ∧ member "scripts" members' = Some (JObject scripts')
    ∧ member "format" scripts' = Some (JString "prettier --write .")
    ∧ member "format:check" scripts' = Some (JString "prettier --check .")
    ∧ (∀ key, key ≠ "scripts" → member key members' = member key members)
    ∧ (∀ key, key ≠ "format" → key ≠ "format:check" →
         member key scripts' = member key scripts)
    ∧ keys members'
      = keys members
        ++ (if decide ("scripts" ∈ keys members) then [] else ["scripts"])
    ∧ keys scripts'
      = keys scripts
        ++ (if decide ("format" ∈ keys scripts) then [] else ["format"])
        ++ (if decide ("format:check" ∈ keys scripts) then []
            else ["format:check"])
    ∧ text
      = "{" +:+ LF +:+ "  "
        +:+ String.concat ("," +:+ LF +:+ "  ")
              (map (member_line "  " "  ") members')
        +:+ LF +:+ "}" +:+ LF
    ∧ SerializeJSONProperty "  " "  " (JObject scripts')
      = "{" +:+ LF +:+ "    "
        +:+ String.concat ("," +:+ LF +:+ "    ")
              (map (member_line "  " "    ") scripts')
        +:+ LF +:+ "  }".
Proof.
  intros w members scripts.
  apply (updatePackageJson_adds_scripts (num := Z) w InMemory.manifest_text
           members scripts); vm_compute; reflexivity.
Defined.

(** Scenario C of the specification, to the letter. *)
Example updatePackageJson_scenario_C :
  let w := InMemory.start [(["package.json"], InMemory.manifest_text)] [] in
  let q := InMemory.quoted in
  InMemory.files (host (updatePackageJson (num := Z) w).2) !! ["package.json"]
  = Some ("{" +:+ LF
          +:+ "  " +:+ q "name" +:+ ": " +:+ q "p" +:+ "," +:+ LF
          +:+ "  " +:+ q "scripts" +:+ ": {" +:+ LF
          +:+ "    " +:+ q "test" +:+ ": " +:+ q "x" +:+ "," +:+ LF
          +:+ "    " +:+ q "format" +:+ ": " +:+ q "prettier --write ." +:+ ","
          +:+ LF
          +:+ "    " +:+ q "format:check" +:+ ": " +:+ q "prettier --check ."
          +:+ LF
          +:+ "  }" +:+ LF
          +:+ "}" +:+ LF).
Proof. vm_compute. reflexivity. Qed.

(** C8, as the claim words it, fails: this manifest is read and parsed,
    but its [scripts] is the string "build"; assigning [format] to it
    throws, the handler takes over, and nothing is written. *)
Lemma updatePackageJson_string_scripts_unpatched :
  let w := InMemory.start [(["package.json"], InMemory.odd_manifest_text)] [] in
  host_readFile ["package.json"] (host w) = Ok InMemory.odd_manifest_text
  ∧ JSON_parse InMemory.odd_manifest_text = Ok InMemory.odd_manifest
  ∧ updatePackageJson (num := Z) w
    = (Resolved tt,
       World (host w) [] [ReadFile ["package.json"]; ConsoleLog skip_message])
  ∧ ¬ ∃ text, WriteFile ["package.json"] text
              ∈ calls_since w (updatePackageJson (num := Z) w).2.
Proof.
  intros w.
  assert (Hrun : updatePackageJson (num := Z) w
    = (Resolved tt,
       World (host w) [] [ReadFile ["package.json"]; ConsoleLog skip_message]))
    by (vm_compute; reflexivity).
  repeat split; try (vm_compute; reflexivity).
  intros [text Hin]. rewrite Hrun in Hin.
  unfold calls_since in Hin. cbn in Hin.
  apply elem_of_cons in Hin as [Hin|Hin]; [discriminate|].
  apply elem_of_cons in Hin as [Hin|Hin]; [discriminate|].
  by apply elem_of_nil in Hin.
Qed.

(** * Further properties *)

(** ** More on the copier *)

Create HintDb quiet.

Section CopierFurther.
Context {env : Type} `{Host env}.

(** The destination exists, the flag is not set and the input is at its
    end: the question is printed and never answered. *)
Lemma copyDirectory_file_eof relativePath content (w : world env) :
  host_access relativePath (host w) = Ok tt →
  stdin w = [] →
  copyDirectory_file relativePath content false w
  = (Pending,
     World (host w) []
       (trace w ++ [Access relativePath;
                    Question (promptOverwrite_query (show_path relativePath))])).
Proof.
  intros E Hin. unfold copyDirectory_file. rewrite run_bind.
  unfold try_catch. rewrite run_bind. unfold access. rewrite E.
  cbn [settle negb]. rewrite run_bind. unfold promptOverwrite.
  rewrite run_bind. unfold question. cbn [stdin host trace record].
  rewrite Hin. unfold record. cbn [stdin host trace].
  rewrite <- app_assoc, Hin. reflexivity.
Qed.

Lemma no_question_filter (calls : list call) :
  Forall (λ c, is_question c = false) calls →
  List.filter is_question calls = [].
Proof.
  induction 1 as [|c calls Hc _ IH]; [reflexivity|].
  cbn [List.filter]. by rewrite Hc.
Qed.

(** Every way a visit can go: it reaches the copy with some flag, or it
    skips the file, or it waits for an answer for ever; up to there the
    host is as it was. *)
Lemma copyDirectory_file_cases relativePath content flag (w : world env) :
  ∃ w2, host w2 = host w
    ∧ ((∃ flag', copyDirectory_file relativePath content flag w
                 = (copyInto relativePath content ≫= λ _, mret flag') w2)
       ∨ copyDirectory_file relativePath content flag w = (Resolved false, w2)
       ∨ copyDirectory_file relativePath content flag w = (Pending, w2)).
Proof.
  destruct (host_access relativePath (host w)) as [[]|e] eqn:E.
  - destruct flag.
    + eexists. split; [|left; eexists; by apply copyDirectory_file_flagged].
      reflexivity.
    + destruct (stdin w) as [|answer rest] eqn:Hin.
      * eexists. split; [|right; right; by apply copyDirectory_file_eof].
        reflexivity.
      * pose proof (copyDirectory_file_asks relativePath content _ _ _ E Hin)
          as Hstep. cbv zeta in Hstep.
        destruct (promptOverwrite_answer answer) as [|[]];
          (eexists; split; [|first [ left; eexists; exact Hstep
                                   | right; left; exact Hstep ]]);
          reflexivity.
  - eexists. split; [|left; eexists; by eapply copyDirectory_file_unreachable].
    reflexivity.
Qed.

(** What a visit that starts with the flag unset has been answered when
    it resolves: nothing, with the flag still unset, or one answer, with
    the flag set exactly when that answer means "all". *)
Lemma copyDirectory_file_reads relativePath content (w : world env) b w' :
  copyDirectory_file relativePath content false w = (Resolved b, w') →
  (stdin w' = stdin w ∧ b = false)
  ∨ ∃ answer, stdin w = answer :: stdin w'
              ∧ (b = true ↔ promptOverwrite_answer answer = All).
Proof.
  destruct (host_access relativePath (host w)) as [[]|e] eqn:E.
  - destruct (stdin w) as [|answer rest] eqn:Hin.
    + by rewrite (copyDirectory_file_eof _ _ _ E Hin).
    + rewrite (copyDirectory_file_asks _ _ _ _ _ E Hin). cbv zeta.
      destruct (promptOverwrite_answer answer) as [|[]] eqn:Ha.
      * intros Hrun. apply copy_then_flag in Hrun as (Hs & calls & _ & _ & Hb).
        destruct (Hb b eq_refl) as [Hbb _]. clear Hb. subst b. right. exists answer.
        cbn in Hs. by rewrite Hs.
      * intros Hrun. apply copy_then_flag in Hrun as (Hs & calls & _ & _ & Hb).
        destruct (Hb b eq_refl) as [Hbb _]. clear Hb. subst b. right. exists answer.
        cbn in Hs. rewrite Hs. split; [done|]. split; intros E'; [discriminate E' | rewrite Ha in E'; discriminate E'].
      * intros [= <- <-]. right. exists answer. split; [done|].
        split; intros E'; [discriminate E' | rewrite Ha in E'; discriminate E'].
  - rewrite (copyDirectory_file_unreachable _ _ _ _ _ E).
    intros Hrun. apply copy_then_flag in Hrun as (Hs & calls & _ & _ & Hb).
    destruct (Hb b eq_refl) as [Hbb _]. clear Hb. subst b. left.
    by rewrite Hs.
Qed.

(** X1.  When the destination exists, the flag is unset and the answer
    means yes, the file is copied and the flag stays unset: the walk goes
    on asking. *)
Theorem copyDirectory_yes_copies_once src dir overwriteAll (w : world env)
    relativePath content after w1 answer rest :
  arrives src dir overwriteAll w relativePath content after false w1 →
  host_access relativePath (host w1) = Ok tt →
  stdin w1 = answer :: rest →
  promptOverwrite_answer answer = Overwrite true →
  let w2 := World (host w1) rest
              (trace w1 ++ [Access relativePath;
                            Question (promptOverwrite_query
                                        (show_path relativePath))]) in
  copyDirectory_file relativePath content false w1
  = (copyInto relativePath content;; mret false) w2
  ∧ copyDirectory src dir overwriteAll w
    = (copyInto relativePath content;; walk after false) w2.
Proof.
  intros Harrives Haccess Hin Hyes w2.
  pose proof (copyDirectory_file_asks relativePath content _ _ _ Haccess Hin)
    as Hstep.
  rewrite Hyes in Hstep. cbv zeta in Hstep. split; [exact Hstep|].
  rewrite (copyDirectory_arrives _ _ _ _ _ _ _ _ _ Harrives).
  rewrite <- walk_after_copy. by apply run_bind_moved.
Qed.

(** X2.  The questions one visit prints.  A file whose destination exists
    is asked about exactly once while the flag is unset, by its path below
    the walk root, whatever the answer and also when none ever comes; with
    the flag set, or with a destination that cannot be reached, nothing is
    asked. *)
Theorem copyDirectory_file_asks_once relativePath content flag
    (w : world env) :
  List.filter is_question
    (calls_since w (copyDirectory_file relativePath content flag w).2)
  = match host_access relativePath (host w) with
    | Ok _ =>
        if flag then []
        else [Question (promptOverwrite_query (show_path relativePath))]
    | Fail _ => []
    end.
Proof.
  assert (Hcopy : ∀ (flag' : bool) (before : list call) w1,
    trace w1 = trace w ++ before →
    List.filter is_question
      (calls_since w
         ((copyInto relativePath content ≫= λ _, mret flag') w1).2)
    = List.filter is_question before).
  { intros flag' before w1 Hbefore.
    destruct ((copyInto relativePath content ≫= λ _, mret flag') w1)
      as [r w'] eqn:Hrun.
    apply copy_then_flag in Hrun as (_ & calls & Ht & Hq & _).
    rewrite Hbefore, <- app_assoc in Ht. cbn [snd].
    rewrite (calls_since_app _ _ _ Ht), List.filter_app.
    by rewrite (no_question_filter _ Hq), app_nil_r. }
  destruct (host_access relativePath (host w)) as [[]|e] eqn:E.
  - destruct flag.
    + rewrite (copyDirectory_file_flagged _ _ _ E).
      by rewrite (Hcopy true [Access relativePath]).
    + destruct (stdin w) as [|answer rest] eqn:Hin.
      * rewrite (copyDirectory_file_eof _ _ _ E Hin). cbn [snd].
        by rewrite (calls_since_app w _
                      [Access relativePath;
                       Question (promptOverwrite_query
                                   (show_path relativePath))]).
      * rewrite (copyDirectory_file_asks _ _ _ _ _ E Hin). cbv zeta.
        destruct (promptOverwrite_answer answer) as [|[]].
        -- by rewrite (Hcopy true
                         [Access relativePath;
                          Question (promptOverwrite_query
                                      (show_path relativePath))])
             by (cbn [trace]; reflexivity).
        -- by rewrite (Hcopy false
                         [Access relativePath;
                          Question (promptOverwrite_query
                                      (show_path relativePath))])
             by (cbn [trace]; reflexivity).
        -- cbn [snd].
           by rewrite (calls_since_app w _
                         [Access relativePath;
                          Question (promptOverwrite_query
                                      (show_path relativePath))]).
  - rewrite (copyDirectory_file_unreachable _ _ _ _ _ E).
    by rewrite (Hcopy flag [Access relativePath]).
Qed.

#[local] Hint Resolve silent_ret silent_throw silent_access silent_copyInto
  silent_try_catch silent_bind silent_overwriteEach : quiet.

(** X3.  Started with the flag set, a walk is the copier that never asks:
    it reads no input, prints no question, and when it completes it hands
    the flag back set. *)
Theorem copyDirectory_flagged_never_asks src dir (w : world env) :
  copyDirectory src dir true w
  = (overwriteEach (visits src dir);; mret true) w
  ∧ stdin (copyDirectory src dir true w).2 = stdin w
  ∧ Forall (λ c, is_question c = false)
      (calls_since w (copyDirectory src dir true w).2)
  ∧ ∀ b, (copyDirectory src dir true w).1 = Resolved b → b = true.
Proof.
  assert (Hrun : copyDirectory src dir true w
    = (overwriteEach (visits src dir);; mret true) w)
    by (rewrite copyDirectory_walk; apply walk_flagged).
  split; [exact Hrun|]. rewrite Hrun.
  assert (Hs : silent (overwriteEach (visits src dir);; mret true
                       : IO env bool)) by auto with quiet.
  destruct ((overwriteEach (visits src dir);; mret true) w) as [r w'] eqn:E.
  destruct (Hs _ _ _ E) as (Hin & calls & Ht & Hq). cbn [fst snd].
  rewrite (calls_since_app _ _ _ Ht). split; [done|]. split; [done|].
  intros b ->. by apply resolves_to_constant in E.
Qed.

(** The answers a walk that starts with the flag unset has received by
    the time it completes. *)
Lemma walk_reads (vs : list visit) :
  ∀ (w : world env) b w',
    walk vs false w = (Resolved b, w') →
    ∃ received,
      stdin w = received ++ stdin w'
      ∧ if b then
          ∃ earlier answer,
            received = earlier ++ [answer]
            ∧ promptOverwrite_answer answer = All
            ∧ Forall (λ a, promptOverwrite_answer a ≠ All) earlier
        else Forall (λ a, promptOverwrite_answer a ≠ All) received.
Proof.
  induction vs as [|[relativePath content|e] vs IH]; intros w b w'.
  - intros [= <- <-]. exists []. split; [done | constructor].
  - cbn [walk visit_one]. rewrite run_bind.
    destruct (copyDirectory_file relativePath content false w)
      as [[b1| |] w1] eqn:Hstep; [|discriminate..].
    intros Hrest.
    apply copyDirectory_file_reads in Hstep as [[Hs ->]|(answer & Hs & Hb)].
    + destruct (IH _ _ _ Hrest) as (received & Hc & Hflag).
      exists received. by rewrite <- Hs.
    + destruct b1.
      * assert (Hall : promptOverwrite_answer answer = All) by by apply Hb.
        rewrite walk_flagged in Hrest.
        assert (Hq : silent (overwriteEach vs;; mret true : IO env bool))
          by auto with quiet.
        destruct (Hq _ _ _ Hrest) as (Hin & _).
        apply resolves_to_constant in Hrest as ->.
        exists [answer]. split; [by rewrite Hs, Hin|].
        exists [], answer. split; [done|]. split; [done | constructor].
      * assert (Hno : promptOverwrite_answer answer ≠ All).
        { intros Hall. apply Hb in Hall. discriminate Hall. }
        destruct (IH _ _ _ Hrest) as (received & Hc & Hflag).
        exists (answer :: received). split; [by rewrite Hs, Hc|].
        destruct b.
        -- destruct Hflag as (earlier & last & -> & Hall & Hearlier).
           exists (answer :: earlier), last. split; [done|].
           split; [done | by constructor].
        -- by constructor.
  - intros [=].
Qed.

(** X4.  The flag a completed walk hands back, when it was started unset,
    is decided by the answers its questions received: it comes back set
    exactly when the last answer received means "all", and then no answer
    before it means "all".  This speaks of the answers handed to the
    prompts' callbacks, not of every line typed: a line that arrives
    together with an answer is dropped when the prompt closes (see
    [answers_of]) and decides nothing. *)
Theorem copyDirectory_flag_follows_input src dir (w : world env) b w' :
  copyDirectory src dir false w = (Resolved b, w') →
  ∃ received,
    stdin w = received ++ stdin w'
    ∧ if b then
        ∃ earlier answer,
          received = earlier ++ [answer]
          ∧ promptOverwrite_answer answer = All
          ∧ Forall (λ a, promptOverwrite_answer a ≠ All) earlier
      else Forall (λ a, promptOverwrite_answer a ≠ All) received.
Proof. rewrite copyDirectory_walk. apply walk_reads. Qed.

(** X5.  A visit rejects only with the error of its own [mkdir] or
    [copyFile] (after a failed [mkdir], [copyFile] is not called); the
    walk then rejects with that error in the same world, so no later file
    is visited and nothing copied before is undone. *)
Theorem copyDirectory_rejects_with_io_error src dir overwriteAll
    (w : world env) relativePath content after flag w1 e w2 :
  arrives src dir overwriteAll w relativePath content after flag w1 →
  copyDirectory_file relativePath content flag w1 = (Rejected e, w2) →
  copyDirectory src dir overwriteAll w = (Rejected e, w2)
  ∧ ((host_mkdir (dirname relativePath) (host w1) = (Fail e, host w2)
      ∧ last (trace w2) = Some (Mkdir (dirname relativePath)))
     ∨ ∃ h, host_mkdir (dirname relativePath) (host w1) = (Ok tt, h)
            ∧ host_copyFile relativePath content relativePath h
              = (Fail e, host w2)
            ∧ last (trace w2) = Some (CopyFile relativePath relativePath)).
Proof.
  intros Harrives Hstep. split.
  { rewrite (copyDirectory_arrives _ _ _ _ _ _ _ _ _ Harrives).
    by rewrite run_bind, Hstep. }
  destruct (copyDirectory_file_cases relativePath content flag w1)
    as (w0 & Hhost & [[flag' Hcase]|[Hcase|Hcase]]);
    rewrite Hcase in Hstep; [|discriminate..].
  clear Hcase. rewrite run_bind, copyInto_run, Hhost in Hstep.
  destruct (host_mkdir (dirname relativePath) (host w1)) as [[[]|e'] h] eqn:Hm.
  - destruct (host_copyFile relativePath content relativePath h)
      as [[[]|e''] h'] eqn:Hc; [discriminate|].
    injection Hstep as <- <-. right. exists h. split; [reflexivity|].
    split; [exact Hc|]. cbn [trace].
    change [Mkdir (dirname relativePath); CopyFile relativePath relativePath]
      with ([Mkdir (dirname relativePath)]
            ++ [CopyFile relativePath relativePath]).
    by rewrite app_assoc, last_snoc.
  - injection Hstep as <- <-. left. split; [reflexivity|]. cbn [trace].
    by rewrite last_snoc.
Qed.

(** X6.  When a directory cannot be listed or an entry cannot be examined,
    the walk rejects with that error on the spot: the files met before
    have been visited, those after are not. *)
Theorem copyDirectory_stops_at_unreadable_entry src dir overwriteAll
    (w : world env) before e after flag w1 :
  visits src dir = before ++ VisitFails e :: after →
  walk before overwriteAll w = (Resolved flag, w1) →
  copyDirectory src dir overwriteAll w = (Rejected e, w1).
Proof.
  intros Hvisits Hbefore.
  rewrite copyDirectory_walk, Hvisits, walk_app.
  by rewrite (run_bind_resolved _ _ _ _ _ Hbefore).
Qed.

(** X7.  At the end of the input a conflict is never answered: the
    question is printed, the walk stays pending, and neither this file nor
    any later one is copied. *)
Theorem copyDirectory_waits_at_end_of_input src dir overwriteAll
    (w : world env) relativePath content after w1 :
  arrives src dir overwriteAll w relativePath content after false w1 →
  host_access relativePath (host w1) = Ok tt →
  stdin w1 = [] →
  copyDirectory src dir overwriteAll w
  = (Pending,
     World (host w1) []
       (trace w1 ++ [Access relativePath;
                     Question (promptOverwrite_query
                                 (show_path relativePath))])).
Proof.
  intros Harrives Haccess Hin.
  rewrite (copyDirectory_arrives _ _ _ _ _ _ _ _ _ Harrives).
  by rewrite run_bind, (copyDirectory_file_eof _ _ _ Haccess Hin).
Qed.

(** X8.  A tree that holds no file, however many empty directories it
    nests, is only listed and examined: the walk does nothing to the
    target directory (no [access], [mkdir] or [copyFile], so no directory
    is created for it), asks nothing, and hands the flag back as given. *)
Theorem copyDirectory_without_files src dir flag (w : world env) :
  visits src dir = [] →
  copyDirectory src dir flag w = (Resolved flag, w).
Proof. intros Hvisits. by rewrite copyDirectory_walk, Hvisits. Qed.

(** *** Which calls a walk can make *)

Lemma emits_intro {A} (P : call → Prop) (m : IO env A) :
  (∀ w r w', m w = (r, w') →
     ∃ calls, trace w' = trace w ++ calls ∧ Forall P calls) →
  emits P m.
Proof. intros Hm w. destruct (m w) as [r w'] eqn:E. eauto. Qed.

Lemma emits_run {A} (P : call → Prop) (m : IO env A) w r w' :
  emits P m → m w = (r, w') →
  ∃ calls, trace w' = trace w ++ calls ∧ Forall P calls.
Proof. intros Hm E. specialize (Hm w). by rewrite E in Hm. Qed.

Lemma emits_ret {A} (P : call → Prop) (a : A) : emits P (mret a : IO env A).
Proof. intros w. exists []. by rewrite app_nil_r. Qed.

Lemma emits_throw {A} (P : call → Prop) (e : error) :
  emits P (throw e : IO env A).
Proof. intros w. exists []. by rewrite app_nil_r. Qed.

Lemma emits_bind {A B} (P : call → Prop) (m : IO env A) (f : A → IO env B) :
  emits P m → (∀ a, emits P (f a)) → emits P (m ≫= f).
Proof.
  intros Hm Hf. apply emits_intro. intros w r w'. rewrite run_bind.
  destruct (m w) as [[a|e|] w1] eqn:E;
    destruct (emits_run _ _ _ _ _ Hm E) as (calls & Ht & Hq).
  - intros E'. destruct (emits_run _ _ _ _ _ (Hf a) E') as (calls' & Ht' & Hq').
    exists (calls ++ calls').
    split; [by rewrite Ht', Ht, app_assoc | by apply Forall_app].
  - intros [= <- <-]. eauto.
  - intros [= <- <-]. eauto.
Qed.

Lemma emits_try_catch {A} (P : call → Prop) (body : IO env A)
    (handler : error → IO env A) :
  emits P body → (∀ e, emits P (handler e)) → emits P (try_catch body handler).
Proof.
  intros Hm Hf. apply emits_intro. intros w r w'. unfold try_catch.
  destruct (body w) as [[a|e|] w1] eqn:E;
    destruct (emits_run _ _ _ _ _ Hm E) as (calls & Ht & Hq).
  - intros [= <- <-]. eauto.
  - intros E'. destruct (emits_run _ _ _ _ _ (Hf e) E') as (calls' & Ht' & Hq').
    exists (calls ++ calls').
    split; [by rewrite Ht', Ht, app_assoc | by apply Forall_app].
  - intros [= <- <-]. eauto.
Qed.

Lemma emits_weaken {A} (P Q : call → Prop) (m : IO env A) :
  (∀ c, P c → Q c) → emits P m → emits Q m.
Proof.
  intros HPQ Hm w. destruct (Hm w) as (calls & Ht & Hq).
  exists calls. split; [done|]. by eapply Forall_impl.
Qed.

Lemma emits_access (P : call → Prop) (p : path) :
  P (Access p) → emits P (access p).
Proof. intros HP w. exists [Access p]. split; [done | by constructor]. Qed.

Lemma emits_question (P : call → Prop) (query : string) :
  P (Question query) → emits P (question query : IO env string).
Proof.
  intros HP w. exists [Question query]. unfold question.
  destruct (stdin w); (split; [done | by constructor]).
Qed.

Lemma emits_copyInto (P : call → Prop) (relativePath : path) (content : string) :
  P (Mkdir (dirname relativePath)) → P (CopyFile relativePath relativePath) →
  emits P (copyInto relativePath content).
Proof.
  intros Hm Hc w. rewrite copyInto_run.
  destruct (host_mkdir _ _) as [[[]|e] h].
  - destruct (host_copyFile _ _ _ _) as [r' h']. eexists.
    split; [done | by repeat constructor].
  - eexists. split; [done | by repeat constructor].
Qed.

Lemma emits_copyDirectory_file (P : call → Prop) relativePath content flag :
  P (Access relativePath) →
  P (Question (promptOverwrite_query (show_path relativePath))) →
  P (Mkdir (dirname relativePath)) →
  P (CopyFile relativePath relativePath) →
  emits P (copyDirectory_file relativePath content flag).
Proof.
  intros Ha Hq Hm Hc. unfold copyDirectory_file.
  apply emits_bind.
  - apply emits_try_catch; [|intros; apply emits_ret].
    apply emits_bind; [by apply emits_access|]. intros _.
    destruct (negb flag); [|apply emits_ret].
    unfold promptOverwrite. apply emits_bind.
    + apply emits_bind; [by apply emits_question | intros; apply emits_ret].
    + intros [|yes]; apply emits_ret.
  - intros [flag' shouldCopy]. apply emits_bind; [|intros; apply emits_ret].
    destruct shouldCopy; [by apply emits_copyInto | apply emits_ret].
Qed.

Lemma emits_walk (vs : list visit) :
  ∀ flag, emits (mirrors vs) (walk vs flag).
Proof.
  induction vs as [|v vs IH]; intros flag; cbn [walk].
  - apply emits_ret.
  - apply emits_bind.
    + destruct v as [relativePath content|e]; cbn [visit_one];
        [|apply emits_throw].
      apply emits_copyDirectory_file;
        exists relativePath, content; (split; [by left|]); auto.
    + intros flag'. eapply emits_weaken; [|apply IH].
      intros c (relativePath & content & Hin & Hc).
      exists relativePath, content. split; [by right | done].
Qed.

(** X9.  Whatever the host and the input, every call a walk makes outside
    the template tree (which it lists and examines with [readdir] and
    [stat]) belongs to a file of that tree: it looks up, asks about, makes
    the directory of, or copies that file, and each copy goes to the very
    path the file has below the template root.  A walk reads and writes no
    manifest, prints nothing but its questions and spawns nothing. *)
Theorem copyDirectory_mirrors_templates src dir flag (w : world env) :
  Forall (mirrors (visits src dir))
    (calls_since w (copyDirectory src dir flag w).2).
Proof.
  rewrite copyDirectory_walk.
  destruct (emits_walk (visits src dir) flag w) as (calls & Ht & Hq).
  by rewrite (calls_since_app _ _ _ Ht).
Qed.
End CopierFurther.

(** *** Further walks on concrete trees *)

(** [a.txt] and [c.txt] exist; "y" is answered for the first, and the
    second is asked about again. *)
Lemma copyDirectory_yes_copies_once_witness :
  let w := InMemory.start [(["a.txt"], "old"); (["c.txt"], "old")] ["y"; "n"] in
  let w2 := World (host w) ["n"]
              [Access ["a.txt"];
               Question (promptOverwrite_query (show_path ["a.txt"]))] in
  copyDirectory_file ["a.txt"] "A" false w
  = (copyInto ["a.txt"] "A";; mret false) w2
  ∧ copyDirectory [] InMemory.templates false w
    = (copyInto ["a.txt"] "A";;
       walk [VisitFile ["sub"; "b.txt"] "B"; VisitFile ["c.txt"] "C"] false) w2.
Proof.
  intros w w2.
  apply (copyDirectory_yes_copies_once [] InMemory.templates false w
           ["a.txt"] "A"
           [VisitFile ["sub"; "b.txt"] "B"; VisitFile ["c.txt"] "C"]
           w "y" ["n"]).
  - exists []. split; reflexivity.
  - vm_compute. reflexivity.
  - reflexivity.
  - vm_compute. reflexivity.
Defined.

Example copyDirectory_yes_then_no_run :
  let w := InMemory.start [(["a.txt"], "old"); (["c.txt"], "old")] ["y"; "n"] in
  (copyDirectory [] InMemory.templates false w).1 = Resolved false
  ∧ (λ p, InMemory.files
             (host (copyDirectory [] InMemory.templates false w).2) !! p)
    <$> [["a.txt"]; ["sub"; "b.txt"]; ["c.txt"]]
    = [Some "A"; Some "B"; Some "old"].
Proof. cbv zeta. split; vm_compute; reflexivity. Qed.

Lemma copyDirectory_file_asks_once_witness :
  let w := InMemory.start [(["sub"; "b.txt"], "old")] ["Yes"; "n"] in
  List.filter is_question
    (calls_since w (copyDirectory_file ["sub"; "b.txt"] "B" false w).2)
  = [Question (promptOverwrite_query (show_path ["sub"; "b.txt"]))].
Proof.
  intros w.
  exact (copyDirectory_file_asks_once ["sub"; "b.txt"] "B" false w).
Defined.

(** "y" for [a.txt], then "all" for [c.txt]: the flag comes back set, and
    the last answer received is the one that set it. *)
Lemma copyDirectory_flag_follows_input_witness :
  let w := InMemory.start [(["a.txt"], "old"); (["c.txt"], "old")]
             (answers_of [["y"]; ["all"]; ["unread"]]) in
  ∃ received,
    stdin w = received ++ stdin (copyDirectory [] InMemory.templates false w).2
    ∧ ∃ earlier answer,
        received = earlier ++ [answer]
        ∧ promptOverwrite_answer answer = All
        ∧ Forall (λ a, promptOverwrite_answer a ≠ All) earlier.
Proof.
  intros w.
  apply (copyDirectory_flag_follows_input [] InMemory.templates w true
           (copyDirectory [] InMemory.templates false w).2).
  vm_compute. reflexivity.
Defined.

(** Typing ahead: [y] and [all] arrive in one burst while [a.txt] is asked
    about.  The prompt for [a.txt] is answered [y] and drops [all] when it
    closes, so [all] answers nothing: with [a.txt] the only conflict the
    flag comes back unset, and a later conflict would wait for an answer
    of its own. *)
Example copyDirectory_typed_ahead :
  answers_of [["y"; "all"]] = ["y"]
  ∧ (copyDirectory [] InMemory.templates false
       (InMemory.start [(["a.txt"], "old")] (answers_of [["y"; "all"]]))).1
    = Resolved false
  ∧ (copyDirectory [] InMemory.templates false
       (InMemory.start [(["a.txt"], "old"); (["c.txt"], "old")]
          (answers_of [["y"; "all"]]))).1
    = Pending.
Proof. repeat split; vm_compute; reflexivity. Qed.

(** [mkdir] with [recursive] on a read-only target: the target directory
    and a directory above a stored file are in place, a new directory
    cannot be made, and a file is in the way of a directory at its path or
    below it. *)
Example make_directory_read_only :
  let m := InMemory.Mem {[ ["sub"; "b.txt"] := "old" ]} ∅ true
             (OnExit (Some 0%Z)) in
  (λ p, (host_mkdir p m).1)
    <$> [[]; ["sub"]; ["other"]; ["sub"; "b.txt"]; ["sub"; "b.txt"; "deep"]]
  = [Ok tt; Ok tt; Fail (SystemError "EROFS"); Fail (SystemError "EEXIST");
     Fail (SystemError "ENOTDIR")].
Proof. vm_compute. reflexivity. Qed.

(** The target directory is read-only: [mkdir] finds it in place, the
    copy of the first file fails, and the walk ends there. *)
Lemma copyDirectory_rejects_with_io_error_witness :
  let w := InMemory.readonly_empty in
  let w2 := World (host w) []
              [Access ["a.txt"]; Mkdir []; CopyFile ["a.txt"] ["a.txt"]] in
  copyDirectory [] InMemory.templates false w
  = (Rejected (SystemError "EROFS"), w2)
  ∧ ((host_mkdir (dirname ["a.txt"]) (host w)
      = (Fail (SystemError "EROFS"), host w2)
      ∧ last (trace w2) = Some (Mkdir (dirname ["a.txt"])))
     ∨ ∃ h, host_mkdir (dirname ["a.txt"]) (host w) = (Ok tt, h)
            ∧ host_copyFile ["a.txt"] "A" ["a.txt"] h
              = (Fail (SystemError "EROFS"), host w2)
            ∧ last (trace w2) = Some (CopyFile ["a.txt"] ["a.txt"])).
Proof.
  intros w w2.
  apply (copyDirectory_rejects_with_io_error [] InMemory.templates false w
           ["a.txt"] "A"
           [VisitFile ["sub"; "b.txt"] "B"; VisitFile ["c.txt"] "C"]
           false w (SystemError "EROFS") w2).
  - exists []. split; reflexivity.
  - vm_compute. reflexivity.
Defined.

(** [sub] cannot be listed: [a.txt] is copied, [c.txt] is not. *)
Lemma copyDirectory_stops_at_unreadable_entry_witness :
  let w := InMemory.start [] [] in
  copyDirectory [] InMemory.locked_templates false w
  = (Rejected (SystemError "EACCES"),
     (walk [VisitFile ["a.txt"] "A"] false w).2).
Proof.
  intros w.
  apply (copyDirectory_stops_at_unreadable_entry [] InMemory.locked_templates
           false w [VisitFile ["a.txt"] "A"] (SystemError "EACCES")
           [VisitFile ["c.txt"] "C"] false).
  - reflexivity.
  - vm_compute. reflexivity.
Defined.

(** [a.txt] exists and nothing can be read from standard input. *)
Lemma copyDirectory_waits_at_end_of_input_witness :
  let w := InMemory.start [(["a.txt"], "old")] [] in
  copyDirectory [] InMemory.templates false w
  = (Pending,
     World (host w) []
       [Access ["a.txt"];
        Question (promptOverwrite_query (show_path ["a.txt"]))]).
Proof.
  intros w.
  apply (copyDirectory_waits_at_end_of_input [] InMemory.templates false w
           ["a.txt"] "A"
           [VisitFile ["sub"; "b.txt"] "B"; VisitFile ["c.txt"] "C"] w).
  - exists []. split; reflexivity.
  - vm_compute. reflexivity.
  - reflexivity.
Defined.

Lemma copyDirectory_without_files_witness :
  let w := InMemory.start [] ["y"] in
  copyDirectory [] InMemory.hollow_templates true w = (Resolved true, w).
Proof.
  intros w.
  apply (copyDirectory_without_files [] InMemory.hollow_templates true w).
  reflexivity.
Defined.

(** ** More on the installer *)

Section InstallerFurther.
Context {env : Type} `{Host env}.

(** X10.  Whatever the package manager, the installer prints one line and
    spawns one program: the one named like the package manager, with the
    package name as last argument and a flag that makes it a development
    dependency.  It reads no input. *)
Theorem installDependency_invocation (pm : packageManager)
    (packageName : string) (w : world env) :
  ∃ args,
    calls_since w (installDependency pm packageName w).2
    = [ConsoleLog ("Installing " +:+ packageName +:+ " with "
                   +:+ packageManager_name pm +:+ "...");
       Spawn (packageManager_name pm) args]
    ∧ last args = Some packageName
    ∧ ("--save-dev" ∈ args ∨ "--dev" ∈ args)
    ∧ stdin (installDependency pm packageName w).2 = stdin w.
Proof.
  rewrite installDependency_run.
  destruct pm; cbn [commands packageManager_name];
    destruct (host_spawn _ _ (host w)) as [event h]; cbn [snd stdin];
    eexists; (split; [by apply calls_since_app|]);
    (split; [reflexivity|]); (split; [|reflexivity]).
  - left. set_solver.
  - right. set_solver.
  - left. set_solver.
Qed.
End InstallerFurther.

(** ** More on the patcher *)

Section MemberFurther.
Context {A : Type}.
Implicit Types (members : list (string * A)) (key : string) (v : A).

(** Assigning to a key the value it has changes nothing. *)
Lemma assign_same key v members :
  member key members = Some v → assign key v members = members.
Proof.
  induction members as [|[k x] members IH]; cbn [member assign]; [done|].
  destruct (decide (k = key)) as [->|Hk].
  - by intros [= ->].
  - intros E. by rewrite IH.
Qed.

(** A function of the members that does not tell the old value of [key]
    from the new one gives the same list after the assignment. *)
Lemma map_assign {B} (f : string * A → B) key v v0 members :
  member key members = Some v0 → f (key, v) = f (key, v0) →
  map f (assign key v members) = map f members.
Proof.
  intros Hm Hf. induction members as [|[k x] members IH];
    cbn [member assign map] in *; [done|].
  destruct (decide (k = key)) as [->|Hk]; cbn [map].
  - injection Hm as ->. by rewrite Hf.
  - by rewrite IH.
Qed.
End MemberFurther.

Section JsonFurther.
Context {num : Type} `{JsonLib num}.
Implicit Types (o v : value num).

Lemma Get_container o key :
  is_container o = true → Get o key = Ok (member key (props o)).
Proof. by destruct o. Qed.

Lemma Put_container o key v :
  is_container o = true →
  Put o key v = Ok (with_props o (assign key v (props o))).
Proof. by destruct o. Qed.

Lemma Put_primitive o key v : is_container o = false → Put o key v = Fail TypeError.
Proof. by destruct o. Qed.

Lemma props_with_props o members :
  is_container o = true → props (with_props o members) = members.
Proof. by destruct o. Qed.

Lemma with_props_twice o members members' :
  with_props (with_props o members) members' = with_props o members'.
Proof. by destruct o. Qed.

Lemma with_props_props o : with_props o (props o) = o.
Proof. by destruct o. Qed.

Lemma is_container_with_props o members :
  is_container (with_props o members) = is_container o.
Proof. by destruct o. Qed.

Lemma container_truthy o : is_container o = true → ToBoolean (Some o) = true.
Proof. by destruct o. Qed.

(** One assignment [packageJson.scripts[key] = text], when [scripts]
    holds [v]. *)
Lemma setScript_container o v key text :
  is_container o = true →
  member "scripts" (props o) = Some v →
  setScript o key text
  = if is_container v then
      Ok (with_props o
            (assign "scripts"
               (with_props v (assign key (JString text) (props v)))
               (props o)))
    else Fail TypeError.
Proof.
  intros Ho Hv. unfold setScript.
  rewrite (Get_container _ _ Ho), Hv. cbn [mbind result_bind].
  destruct (is_container v) eqn:Hc.
  - rewrite (Put_container v _ _ Hc). cbn [mbind result_bind].
    by rewrite (Put_container o _ _ Ho).
  - by rewrite (Put_primitive v _ _ Hc).
Qed.

(** The two assignments of lines 157-158, when [scripts] holds [v]. *)
Lemma setScript_both o v :
  is_container o = true →
  member "scripts" (props o) = Some v →
  (setScript o "format" "prettier --write ."
   ≫= λ packageJson, setScript packageJson "format:check" "prettier --check .")
  = if is_container v then
      Ok (with_props o
            (assign "scripts"
               (with_props v
                  (assign "format:check" (JString "prettier --check .")
                     (assign "format" (JString "prettier --write .")
                        (props v))))
               (props o)))
    else Fail TypeError.
Proof.
  intros Ho Hv. rewrite (setScript_container _ _ _ _ Ho Hv).
  destruct (is_container v) eqn:Hc; [|reflexivity].
  cbn [mbind result_bind].
  rewrite (setScript_container _ (with_props v
             (assign "format" (JString "prettier --write .") (props v))));
    [|by rewrite is_container_with_props
     |by rewrite (props_with_props _ _ Ho), member_assign].
  rewrite is_container_with_props, Hc.
  by rewrite (props_with_props _ _ Ho), (props_with_props _ _ Hc),
    !with_props_twice, assign_assign.
Qed.

(** Lines 153-158 in closed form. *)
Lemma addScripts_closed_form o :
  addScripts o
  = if is_container o && is_container (scripts_holder o) then
      Ok (with_props o
            (assign "scripts"
               (with_props (scripts_holder o)
                  (assign "format:check" (JString "prettier --check .")
                     (assign "format" (JString "prettier --write .")
                        (props (scripts_holder o)))))
               (props o)))
    else Fail TypeError.
Proof.
  destruct (is_container o) eqn:Ho; cbn [andb].
  - unfold addScripts, scripts_holder.
    rewrite (Get_container _ _ Ho). cbn [mbind result_bind].
    assert (Hfresh :
      (Put o "scripts" (JObject [])
       ≫= λ packageJson,
            setScript packageJson "format" "prettier --write ."
            ≫= λ packageJson,
                 setScript packageJson "format:check" "prettier --check .")
      = Ok (with_props o
              (assign "scripts"
                 (JObject
                    (assign "format:check" (JString "prettier --check .")
                       (assign "format" (JString "prettier --write .") [])))
                 (props o)))).
    { rewrite (Put_container _ _ _ Ho). cbn [mbind result_bind].
      rewrite (setScript_both _ (JObject []));
        [|by rewrite is_container_with_props
         |by rewrite (props_with_props _ _ Ho), member_assign].
      cbn [is_container props with_props].
      by rewrite (props_with_props _ _ Ho), with_props_twice, assign_assign. }
    destruct (member "scripts" (props o)) as [v|] eqn:Hv; [|exact Hfresh].
    destruct (ToBoolean (Some v)) eqn:Ht; cbn [negb]; [|exact Hfresh].
    cbn [mbind result_bind]. by apply setScript_both.
  - destruct o; try discriminate Ho; reflexivity.
Qed.

Lemma addable_spec o :
  addable o = is_container o && is_container (scripts_holder o).
Proof.
  unfold addable, scripts_holder.
  destruct (is_container o) eqn:Ho; cbn [andb]; [|done].
  rewrite (Get_container _ _ Ho).
  destruct (member "scripts" (props o)) as [v|]; [|done].
  by destruct (ToBoolean (Some v)).
Qed.

(** X11.  Adding the scripts to a manifest that has them changes nothing:
    whatever [addScripts] returns, it returns again when applied to it. *)
Theorem addScripts_idempotent o o' :
  addScripts o = Ok o' → addScripts o' = Ok o'.
Proof.
  rewrite addScripts_closed_form.
  destruct (is_container o) eqn:Ho; [|discriminate].
  destruct (is_container (scripts_holder o)) eqn:Hs; [|discriminate].
  cbn [andb]. set (s := scripts_holder o) in *.
  set (entries := assign "format:check" (JString "prettier --check .")
                    (assign "format" (JString "prettier --write .") (props s))).
  intros [= <-].
  assert (Hholder : scripts_holder
                      (with_props o (assign "scripts" (with_props s entries)
                                       (props o)))
                    = with_props s entries).
  { unfold scripts_holder at 1.
    rewrite (props_with_props _ _ Ho), member_assign.
    rewrite container_truthy; [done | by rewrite is_container_with_props]. }
  rewrite addScripts_closed_form, Hholder, !is_container_with_props, Ho, Hs.
  cbn [andb]. f_equal.
  rewrite (props_with_props _ _ Ho), (props_with_props _ _ Hs).
  rewrite !with_props_twice, assign_assign. do 3 f_equal.
  unfold entries.
  rewrite (assign_same "format");
    [|by rewrite member_assign_other, member_assign].
  by rewrite assign_assign.
Qed.
End JsonFurther.

Section PatcherFurther.
Context {env : Type} `{Host env} {num : Type} `{JsonLib num}.

(** Serializing an array does not look at its named properties. *)
Lemma serialize_array_named gap indent (elements : list (value num)) named named' :
  SerializeJSONProperty gap indent (JArray elements named)
  = SerializeJSONProperty gap indent (JArray elements named').
Proof. reflexivity. Qed.

Lemma updatePackageJson_resolved (w : world env) :
  (updatePackageJson w).1 = Resolved tt ∧ stdin (updatePackageJson w).2 = stdin w.
Proof.
  rewrite updatePackageJson_run. cbv zeta.
  destruct (host_readFile _ _) as [content|e]; [|done].
  destruct (JSON_parse content ≫= addScripts) as [doc|e]; [|done].
  by destruct (host_writeFile _ _ _) as [r h].
Qed.

(** X12.  The patcher never rejects and never stays pending, whatever the
    host does.  It reads [package.json] once, writes at most once and only
    to [package.json], prints one line, and takes no input. *)
Theorem updatePackageJson_always_resolves (w : world env) :
  (updatePackageJson w).1 = Resolved tt
  ∧ stdin (updatePackageJson w).2 = stdin w
  ∧ ((calls_since w (updatePackageJson w).2
      = [ReadFile ["package.json"]; ConsoleLog skip_message]
      ∧ host (updatePackageJson w).2 = host w)
     ∨ ∃ text message,
         calls_since w (updatePackageJson w).2
         = [ReadFile ["package.json"]; WriteFile ["package.json"] text;
            ConsoleLog message]).
Proof.
  rewrite updatePackageJson_run. cbv zeta.
  destruct (host_readFile _ _) as [content|e];
    [|repeat split; left; split; [by apply calls_since_app | done]].
  destruct (JSON_parse content ≫= addScripts) as [doc|e];
    [|repeat split; left; split; [by apply calls_since_app | done]].
  destruct (host_writeFile _ _ _) as [r h]. repeat split.
  right. eexists _, _. by apply calls_since_app.
Qed.

(** X13.  A manifest that is read and parsed is rewritten exactly when it
    is an object or array whose [scripts] is missing, falsy, or itself an
    object or array.  Any other manifest ([null], a number or string, or
    one whose [scripts] is a truthy primitive) is left alone and reported
    with the line for a missing manifest. *)
Theorem updatePackageJson_writes_iff_addable (w : world env) content packageJson :
  host_readFile ["package.json"] (host w) = Ok content →
  JSON_parse content = Ok packageJson →
  if addable packageJson then
    ∃ packageJson' message,
      addScripts packageJson = Ok packageJson'
      ∧ calls_since w (updatePackageJson w).2
        = [ReadFile ["package.json"];
           WriteFile ["package.json"] (JSON_stringify packageJson' 2 +:+ LF);
           ConsoleLog message]
  else
    updatePackageJson w
    = (Resolved tt,
       World (host w) (stdin w)
         (trace w ++ [ReadFile ["package.json"]; ConsoleLog skip_message])).
Proof.
  intros Hread Hparse. rewrite updatePackageJson_run. cbv zeta.
  rewrite Hread, Hparse. cbn [mbind result_bind].
  rewrite addScripts_closed_form, addable_spec.
  destruct (is_container packageJson && is_container (scripts_holder packageJson));
    [|reflexivity].
  destruct (host_writeFile _ _ _) as [r h].
  eexists _, _. split; [reflexivity|]. by apply calls_since_app.
Qed.

(** X14.  When the manifest is an array, the scripts are assigned as named
    properties, which serialization leaves out: the text written is that
    of the array as it was read, and if the write succeeds the patcher
    still reports that the scripts were added. *)
Theorem updatePackageJson_array_unchanged (w : world env) content elements named :
  host_readFile ["package.json"] (host w) = Ok content →
  JSON_parse content = Ok (JArray elements named) →
  addable (JArray elements named) = true →
  let text := JSON_stringify (JArray elements named) 2 +:+ LF in
  ∃ message,
    calls_since w (updatePackageJson w).2
    = [ReadFile ["package.json"]; WriteFile ["package.json"] text;
       ConsoleLog message]
    ∧ ((host_writeFile ["package.json"] text (host w)).1 = Ok tt →
       message = success_message).
Proof.
  intros Hread Hparse Hadd text. rewrite updatePackageJson_run. cbv zeta.
  rewrite Hread, Hparse. cbn [mbind result_bind].
  rewrite addScripts_closed_form, <- addable_spec, Hadd.
  cbn [with_props]. unfold JSON_stringify.
  rewrite (serialize_array_named _ _ elements _ named). fold text.
  destruct (host_writeFile _ _ _) as [[[]|e] h]; eexists;
    (split; [by apply calls_since_app|]); [done | discriminate].
Qed.

(** X15.  When [scripts] holds an array, the two scripts become named
    properties of that array and are left out of the text: what is written
    is the manifest as it was read, reported as a success if the write
    succeeds. *)
Theorem updatePackageJson_scripts_array_unchanged (w : world env) content
    members elements named :
  host_readFile ["package.json"] (host w) = Ok content →
  JSON_parse content = Ok (JObject members) →
  member "scripts" members = Some (JArray elements named) →
  let text := JSON_stringify (JObject members) 2 +:+ LF in
  ∃ message,
    calls_since w (updatePackageJson w).2
    = [ReadFile ["package.json"]; WriteFile ["package.json"] text;
       ConsoleLog message]
    ∧ ((host_writeFile ["package.json"] text (host w)).1 = Ok tt →
       message = success_message).
Proof.
  intros Hread Hparse Hscripts text. rewrite updatePackageJson_run. cbv zeta.
  rewrite Hread, Hparse. cbn [mbind result_bind].
  rewrite addScripts_closed_form. unfold scripts_holder.
  cbn [props is_container andb]. rewrite Hscripts.
  cbn [ToBoolean is_container with_props props].
  assert (Hsame : ∀ named',
    JSON_stringify (JObject (assign "scripts" (JArray elements named') members)) 2
    = JSON_stringify (JObject members) 2).
  { intros named'. unfold JSON_stringify. cbn [SerializeJSONProperty].
    by rewrite (map_assign _ _ _ _ _ Hscripts). }
  rewrite Hsame. fold text.
  destruct (host_writeFile _ _ _) as [[[]|e] h]; eexists;
    (split; [by apply calls_since_app|]); [done | discriminate].
Qed.
End PatcherFurther.

(** ** The orchestrator *)

Section OrchestratorFacts.
Context {env : Type} `{Host env} {num : Type} `{JsonLib num}.

Lemma detectPackageManager_run (w : world env) :
  detectPackageManager w
  = (Resolved (detected w),
     World (host w) (stdin w)
       (trace w ++ Access ["pnpm-lock.yaml"]
                   :: (if marker_exists "pnpm-lock.yaml" w then []
                       else [Access ["yarn.lock"]]))).
Proof.
  unfold detectPackageManager, detected.
  rewrite run_bind, probe_run.
  assert (Hy : marker_exists "yarn.lock" (record (Access ["pnpm-lock.yaml"]) w)
               = marker_exists "yarn.lock" w) by reflexivity.
  destruct (marker_exists "pnpm-lock.yaml" w); [reflexivity|].
  rewrite run_bind, probe_run, Hy. unfold record. cbn [host stdin trace].
  rewrite <- app_assoc.
  by destruct (marker_exists "yarn.lock" w).
Qed.

(** [main] step by step: each step runs only if the one before resolved. *)
Lemma main_run (templatesDir : node) (w : world env) :
  main templatesDir w
  = match copyDirectory [] templatesDir false
            (record (ConsoleLog "Setting up project templates...") w) with
    | (Resolved _, w1) =>
        match installDependency (detected w1) "prettier-plugin-tailwindcss"
                (before_install w1) with
        | (Resolved _, w3) => updatePackageJson w3
        | (Rejected e, w3) => (Rejected e, w3)
        | (Pending, w3) => (Pending, w3)
        end
    | (Rejected e, w1) => (Rejected e, w1)
    | (Pending, w1) => (Pending, w1)
    end.
Proof.
  unfold main. rewrite run_bind. unfold console_log at 1. cbv beta iota.
  rewrite run_bind.
  destruct (copyDirectory [] templatesDir false _) as [[flag|e|] w1];
    [|reflexivity..].
  rewrite run_bind. unfold console_log at 1. cbv beta iota.
  rewrite run_bind. unfold before_install.
  rewrite detectPackageManager_run. cbn [snd].
  change (detected (record (ConsoleLog "Templates added successfully!") w1))
    with (detected w1).
  rewrite run_bind. reflexivity.
Qed.

Lemma before_install_frame (w1 : world env) :
  host (before_install w1) = host w1
  ∧ stdin (before_install w1) = stdin w1
  ∧ ∃ calls, trace (before_install w1) = trace w1 ++ calls
             ∧ Forall (λ c, is_manifest_call c = false) calls
             ∧ Forall (λ c, is_spawn c = false) calls.
Proof.
  unfold before_install. rewrite detectPackageManager_run.
  cbn [snd host stdin trace record]. split; [done|]. split; [done|].
  eexists. rewrite <- app_assoc. split; [reflexivity|].
  destruct (marker_exists _ _); split; by repeat constructor.
Qed.

(** X16.  [main] resolves exactly when the copy resolves and the package
    manager found in the target directory after the copy, run to install
    the plugin, exits with code 0.  The manifest step cannot make it
    fail. *)
Theorem main_resolves_iff (templatesDir : node) (w : world env) :
  (main templatesDir w).1 = Resolved tt
  ↔ ∃ flag w1,
      copyDirectory [] templatesDir false
        (record (ConsoleLog "Setting up project templates...") w)
      = (Resolved flag, w1)
      ∧ (host_spawn
           (commands "prettier-plugin-tailwindcss" (detected w1)).1
           (commands "prettier-plugin-tailwindcss" (detected w1)).2
           (host w1)).1 = OnExit (Some 0%Z).
Proof.
  rewrite main_run.
  destruct (copyDirectory [] templatesDir false _) as [[flag|e|] w1];
    [|split; [discriminate | intros (? & ? & [=] & _)]..].
  destruct (before_install_frame w1) as (Hhost & _).
  rewrite installDependency_run, Hhost.
  destruct (commands "prettier-plugin-tailwindcss" (detected w1))
    as [cmd args] eqn:Hcmd.
  destruct (host_spawn cmd args (host w1)) as [event h] eqn:Hspawn.
  assert (Hback : (∃ flag' w1',
      (Resolved flag, w1) = (Resolved flag', w1')
      ∧ (host_spawn
           (commands "prettier-plugin-tailwindcss" (detected w1')).1
           (commands "prettier-plugin-tailwindcss" (detected w1')).2
           (host w1')).1 = OnExit (Some 0%Z))
    ↔ event = OnExit (Some 0%Z)).
  { split.
    - intros (? & ? & [= <- <-] & Hev). rewrite Hcmd in Hev.
      cbn [fst snd] in Hev. by rewrite Hspawn in Hev.
    - intros ->. exists flag, w1. rewrite Hcmd. cbn [fst snd].
      by rewrite Hspawn. }
  rewrite Hback. clear Hback.
  destruct event as [e|code].
  - split; discriminate.
  - case_bool_decide as Hc.
    + split; [by rewrite Hc | intros _; apply updatePackageJson_resolved].
    + split; [discriminate | intros [= ->]; done].
Qed.

(** X17.  When the copy rejects, [main] rejects with the same error in the
    same world: the line announcing success is not printed, no marker is
    looked up, nothing is spawned and the manifest is not read. *)
Theorem main_stops_at_failed_copy (templatesDir : node) (w : world env) e w1 :
  copyDirectory [] templatesDir false
    (record (ConsoleLog "Setting up project templates...") w)
  = (Rejected e, w1) →
  main templatesDir w = (Rejected e, w1).
Proof. intros Hcopy. by rewrite main_run, Hcopy. Qed.

(** X18.  When the copy resolves and the package manager does not exit
    with code 0, [main] rejects with the installer's error and stops: the
    host is as the spawned program left it, and since the copy the
    manifest was neither read nor written. *)
Theorem main_failed_install_skips_manifest (templatesDir : node)
    (w : world env) flag w1 event :
  copyDirectory [] templatesDir false
    (record (ConsoleLog "Setting up project templates...") w)
  = (Resolved flag, w1) →
  (host_spawn (commands "prettier-plugin-tailwindcss" (detected w1)).1
              (commands "prettier-plugin-tailwindcss" (detected w1)).2
              (host w1)).1 = event →
  event ≠ OnExit (Some 0%Z) →
  (main templatesDir w).1 = Rejected (install_error event)
  ∧ host (main templatesDir w).2
    = (host_spawn (commands "prettier-plugin-tailwindcss" (detected w1)).1
                  (commands "prettier-plugin-tailwindcss" (detected w1)).2
                  (host w1)).2
  ∧ Forall (λ c, is_manifest_call c = false)
      (calls_since w1 (main templatesDir w).2).
Proof.
  intros Hcopy Hevent Hne. rewrite main_run, Hcopy.
  destruct (before_install_frame w1) as (Hhost & _ & calls & Ht & Hq & _).
  rewrite installDependency_run, Hhost, Ht.
  destruct (commands _ _) as [cmd args]. cbn [fst snd] in *.
  destruct (host_spawn cmd args (host w1)) as [event' h].
  cbn [fst snd] in *. subst event'.
  assert (Hcalls :
    Forall (λ c, is_manifest_call c = false)
      (calls_since w1
         (World h (stdin (before_install w1))
            ((trace w1 ++ calls)
             ++ [ConsoleLog ("Installing " +:+ "prettier-plugin-tailwindcss"
                             +:+ " with "
                             +:+ packageManager_name (detected w1)
                             +:+ "...");
                 Spawn cmd args])))).
  { erewrite calls_since_app; [|cbn [trace]; by rewrite <- app_assoc].
    apply Forall_app. split; [done | by repeat constructor]. }
  destruct event as [e|code]; [by repeat split|].
  case_bool_decide as Hc; [by subst code|]. by repeat split.
Qed.

(** X19.  When the copy resolves and the package manager exits with a code
    other than 0, the handler at the top prints "Error: Installation
    failed with code" followed by that code, and exits with status 1. *)
Theorem main_catch_reports_exit_code (describe : error → string)
    (templatesDir : node) (w : world env) flag w1 code :
  copyDirectory [] templatesDir false
    (record (ConsoleLog "Setting up project templates...") w)
  = (Resolved flag, w1) →
  (host_spawn (commands "prettier-plugin-tailwindcss" (detected w1)).1
              (commands "prettier-plugin-tailwindcss" (detected w1)).2
              (host w1)).1 = OnExit code →
  code ≠ Some 0%Z →
  (main_catch describe templatesDir w).1
  = Some ("Error: Installation failed with code " +:+ show_code code, 1%Z).
Proof.
  intros Hcopy Hevent Hne. unfold main_catch. rewrite main_run, Hcopy.
  destruct (before_install_frame w1) as (Hhost & _).
  rewrite installDependency_run, Hhost.
  destruct (commands _ _) as [cmd args]. cbn [fst snd] in *.
  destruct (host_spawn cmd args (host w1)) as [event' h].
  cbn [fst] in Hevent. subst event'.
  by rewrite bool_decide_false.
Qed.
End OrchestratorFacts.

(** *** The patcher and the orchestrator on concrete inputs *)

Lemma addScripts_idempotent_witness :
  addScripts InMemory.bare_manifest_patched = Ok InMemory.bare_manifest_patched.
Proof.
  apply (addScripts_idempotent InMemory.bare_manifest).
  vm_compute. reflexivity.
Defined.

(** A manifest whose [scripts] is a string is left alone. *)
Lemma updatePackageJson_writes_iff_addable_witness :
  let w := InMemory.start [(["package.json"], InMemory.odd_manifest_text)] [] in
  updatePackageJson (num := Z) w
  = (Resolved tt,
     World (host w) (stdin w)
       (trace w ++ [ReadFile ["package.json"]; ConsoleLog skip_message])).
Proof.
  intros w.
  apply (updatePackageJson_writes_iff_addable (num := Z) w
           InMemory.odd_manifest_text InMemory.odd_manifest);
    vm_compute; reflexivity.
Defined.

(** The manifest [[7]] is written back as it was, and success is
    reported. *)
Lemma updatePackageJson_array_unchanged_witness :
  let w := InMemory.start [(["package.json"], InMemory.array_manifest_text)] [] in
  let text := @JSON_stringify Z InMemory.more_json InMemory.array_manifest 2
              +:+ LF in
  ∃ message,
    calls_since w (@updatePackageJson _ _ Z InMemory.more_json w).2
    = [ReadFile ["package.json"]; WriteFile ["package.json"] text;
       ConsoleLog message]
    ∧ ((host_writeFile ["package.json"] text (host w)).1 = Ok tt →
       message = success_message).
Proof.
  intros w.
  apply (@updatePackageJson_array_unchanged _ _ Z InMemory.more_json w
           InMemory.array_manifest_text [JNumber 7%Z] []);
    vm_compute; reflexivity.
Defined.

(** A manifest whose [scripts] is an array is written back as it was. *)
Lemma updatePackageJson_scripts_array_unchanged_witness :
  let w := InMemory.start [(["package.json"], InMemory.listed_manifest_text)] [] in
  let text := @JSON_stringify Z InMemory.more_json InMemory.listed_manifest 2
              +:+ LF in
  ∃ message,
    calls_since w (@updatePackageJson _ _ Z InMemory.more_json w).2
    = [ReadFile ["package.json"]; WriteFile ["package.json"] text;
       ConsoleLog message]
    ∧ ((host_writeFile ["package.json"] text (host w)).1 = Ok tt →
       message = success_message).
Proof.
  intros w.
  apply (@updatePackageJson_scripts_array_unchanged _ _ Z InMemory.more_json w
           InMemory.listed_manifest_text
           [("scripts", JArray [JString "build"] [])] [JString "build"] []);
    vm_compute; reflexivity.
Defined.

Example updatePackageJson_scripts_array_run :
  let w := InMemory.start [(["package.json"], InMemory.listed_manifest_text)] [] in
  let q := InMemory.quoted in
  trace (@updatePackageJson _ _ Z InMemory.more_json w).2
  = [ReadFile ["package.json"];
     WriteFile ["package.json"]
       ("{" +:+ LF
        +:+ "  " +:+ q "scripts" +:+ ": [" +:+ LF
        +:+ "    " +:+ q "build" +:+ LF
        +:+ "  ]" +:+ LF
        +:+ "}" +:+ LF);
     ConsoleLog success_message].
Proof. vm_compute. reflexivity. Qed.

(** A read-only target directory: the copy fails at its first [copyFile],
    and so does [main]. *)
Lemma main_stops_at_failed_copy_witness :
  main (num := Z) InMemory.templates InMemory.readonly_empty
  = (Rejected (SystemError "EROFS"),
     World (host InMemory.readonly_empty) []
       [ConsoleLog "Setting up project templates..."; Access ["a.txt"];
        Mkdir []; CopyFile ["a.txt"] ["a.txt"]]).
Proof.
  apply (main_stops_at_failed_copy (num := Z)). vm_compute. reflexivity.
Defined.

(** The package manager exits with code 1 after a copy into an empty
    directory. *)
Lemma main_failed_install_skips_manifest_witness :
  let w := InMemory.failing_install in
  let w1 := (copyDirectory [] InMemory.templates false
               (record (ConsoleLog "Setting up project templates...") w)).2 in
  (main (num := Z) InMemory.templates w).1
  = Rejected (Error "Installation failed with code 1")
  ∧ host (main (num := Z) InMemory.templates w).2
    = (host_spawn (commands "prettier-plugin-tailwindcss" (detected w1)).1
                  (commands "prettier-plugin-tailwindcss" (detected w1)).2
                  (host w1)).2
  ∧ Forall (λ c, is_manifest_call c = false)
      (calls_since w1 (main (num := Z) InMemory.templates w).2).
Proof.
  intros w w1.
  apply (main_failed_install_skips_manifest (num := Z) InMemory.templates w
           false w1 (OnExit (Some 1%Z))).
  - vm_compute. reflexivity.
  - vm_compute. reflexivity.
  - discriminate.
Defined.

Lemma main_catch_reports_exit_code_witness :
  (main_catch (num := Z) (λ _, "unknown") InMemory.templates
     InMemory.failing_install).1
  = Some ("Error: Installation failed with code 1", 1%Z).
Proof.
  apply (main_catch_reports_exit_code (num := Z) (λ _, "unknown")
           InMemory.templates InMemory.failing_install false
           (copyDirectory [] InMemory.templates false
              (record (ConsoleLog "Setting up project templates...")
                 InMemory.failing_install)).2 (Some 1%Z)).
  - vm_compute. reflexivity.
  - vm_compute. reflexivity.
  - discriminate.
Defined.

(** A whole run: templates copied into a directory that holds the
    manifest of scenario C and a yarn lock file. *)
Example main_run_with_yarn :
  let w := InMemory.start [(["package.json"], InMemory.manifest_text);
                           (["yarn.lock"], "# yarn lockfile v1")] [] in
  (main (num := Z) InMemory.templates w).1 = Resolved tt
  ∧ List.filter is_spawn (trace (main (num := Z) InMemory.templates w).2)
    = [Spawn "yarn" ["add"; "--dev"; "prettier-plugin-tailwindcss"]]
  ∧ last (trace (main (num := Z) InMemory.templates w).2)
    = Some (ConsoleLog success_message).
Proof. cbv zeta. repeat split; vm_compute; reflexivity. Qed.
